(** * Frustum intersection of harp-mapview: a shallow embedding

    This development embeds [@here/harp-mapview/lib/FrustumIntersection.ts]:
    the [TileKeyEntry] record, the root tile selection
    ([computeRequiredInitialRootTileKeys]), the screen area estimate
    ([computeSubTileArea]) and the quadtree traversal ([compute]).

    Conventions of the embedding.
    - A JavaScript [number] that holds a measure (a coordinate, an angle, an
      area, an elevation) is an exact rational [Q]; rounding, NaN and
      overflow of IEEE doubles are outside the model.  The only infinite
      value the source writes, the area [Infinity] of a root entry, has its
      own constructor in [Number].
    - A [number] that holds an integer (a tile level, an offset, a composite
      key) is a [nat] or a [Z].
    - Objects of other packages (three.js, harp-geoutils, the data sources,
      the elevation range source) are records of their methods; the
      functions of three.js and of the sibling modules [Utils] and
      [MapTileCuller] are fields of the classes [ThreeJs] and [HarpUtils].
    - [assert] is the development build's: a failed assertion stops the call.
*)

From Stdlib Require Import QArith Qround Qabs Qminmax Lqa.
From stdpp Require Import base decidable option numbers list gmap fin_maps countable.


(** ** Numbers *)

Definition Qltb (x y : Q) : bool := negb (Qle_bool y x).

(** [Math.round]: the nearest integer, a tie going up. *)
Definition Math_round (x : Q) : Z := Qfloor (x + (1 # 2)).

(** [Math.ceil]. *)
Definition Math_ceil (x : Q) : Z := Qceiling x.

(** [THREE.Math.clamp(value, min, max)] is
    [Math.max(min, Math.min(max, value))]. *)
Definition clamp (value lo hi : Z) : Z := Z.max lo (Z.min hi value).

(** The values the field [area] takes. *)
Inductive Number : Type :=
| Infinity
| Num (q : Q).

(** [a > 0] on an area. *)
Definition Number_gt0 (a : Number) : bool :=
  match a with
  | Infinity => true
  | Num q => Qltb 0 q
  end.

(** A parameter that may be [undefined] and has the default [0]. *)
Definition default0 (o : option Q) : Q :=
  match o with
  | Some q => q
  | None => 0%Q
  end.

(** ** Data of harp-geoutils and three.js *)

Record TileKey : Type := fromRowColumnLevel
  { row : nat; column : nat; level : nat }.

Global Instance TileKey_eq_dec : EqDecision TileKey.
Proof. solve_decision. Defined.

Record GeoCoordinates : Type := mkGeoCoordinates
  { latitude : Q; longitude : Q; altitude : option Q }.

Record GeoBox : Type := mkGeoBox
  { southWest : GeoCoordinates; northEast : GeoCoordinates }.

Inductive ProjectionType : Type := Planar | Spherical.

Global Instance ProjectionType_eq_dec : EqDecision ProjectionType.
Proof. solve_decision. Defined.

Module THREE.

Record Vector2 : Type := mkVector2 { x2 : Q; y2 : Q }.

Record Vector3 : Type := mkVector3 { x : Q; y : Q; z : Q }.

Record Box3 : Type := mkBox3 { min : Vector3; max : Vector3 }.

(** A [Box2] is empty ([None]: min = +Infinity, max = -Infinity) or holds
    its two corners. *)
Definition Box2 : Type := option (Vector2 * Vector2).

Definition expandByPoint (b : Box2) (p : Vector2) : Box2 :=
  match b with
  | None => Some (p, p)
  | Some (lo, hi) =>
      Some (mkVector2 (Qmin (x2 lo) (x2 p)) (Qmin (y2 lo) (y2 p)),
            mkVector2 (Qmax (x2 hi) (x2 p)) (Qmax (y2 hi) (y2 p)))
  end.

Definition getSize (b : Box2) : Vector2 :=
  match b with
  | None => mkVector2 0 0
  | Some (lo, hi) => mkVector2 (x2 hi - x2 lo) (y2 hi - y2 lo)
  end.

End THREE.

(** The part of three.js the source calls into and this development leaves
    open: matrices, the frustum and their operations. *)
Class ThreeJs : Type := {
  Matrix4 : Type;
  Frustum : Type;
  Matrix4_identity : Matrix4;
  Frustum_new : Frustum;
  multiplyMatrices : Matrix4 → Matrix4 → Matrix4;
  makeTranslation : Q → Q → Q → Matrix4;
  applyMatrix4 : THREE.Vector3 → Matrix4 → THREE.Vector3;
  setFromMatrix : Matrix4 → Frustum;
  intersectsBox : Frustum → THREE.Box3 → bool;
  Math_tan : Q → Q;
  degToRad : Q → Q;
  Math_SQRT2 : Q
}.

Section Objects.
Context `{ThreeJs}.

Record PerspectiveCamera : Type := mkPerspectiveCamera {
  position : THREE.Vector3;
  fov : Q;
  aspect : Q;
  projectionMatrix : Matrix4;
  matrixWorldInverse : Matrix4
}.

(** [OrientedBox3] of harp-geoutils. *)
Record OrientedBox3 : Type := mkOrientedBox3 {
  getCenter : THREE.Vector3;
  extents : THREE.Vector3;
  getRotationMatrix : Matrix4;
  intersects : Frustum → bool
}.

(** [Projection] of harp-geoutils; [projectBox] writes into the result
    object it is given, a [Box3] or an [OrientedBox3]. *)
Record Projection : Type := mkProjection {
  type : ProjectionType;
  projectBox_Box3 : GeoBox → THREE.Box3;
  projectBox_OrientedBox3 : GeoBox → OrientedBox3;
  unprojectPoint : THREE.Vector3 → GeoCoordinates
}.

Record MapView : Type := mkMapView { projection : Projection }.

End Objects.

(** [TilingScheme]; [ts_ref] stands for the identity of the object, which is
    what [===] compares. *)
Record TilingScheme : Type := mkTilingScheme {
  ts_ref : nat;
  getSubTileKeys : TileKey → list TileKey;
  TilingScheme_getGeoBox : TileKey → GeoBox
}.

(** Modelled from the spec: the enum [CalculationStatus] of
    [ElevationRangeSource.ts], of which the source only names
    [FinalPrecise]; the spec lists final-precise, approximate and pending. *)
Inductive CalculationStatus : Type := FinalPrecise | Approximate | Pending.

Global Instance CalculationStatus_eq_dec : EqDecision CalculationStatus.
Proof. solve_decision. Defined.

Record ElevationRange : Type := mkElevationRange {
  range_minElevation : Q;
  range_maxElevation : Q;
  calculationStatus : CalculationStatus
}.

Record ElevationRangeSource : Type := mkElevationRangeSource {
  getTilingScheme : TilingScheme;
  getElevationRange : TileKey → ElevationRange
}.

(** [zoomLevels[i]] is [undefined] past the end of the array. *)
Record DataSource : Type := mkDataSource {
  shouldSubdivide : option Z → TileKey → bool
}.

(** The functions of the sibling modules [Utils] ([TileOffsetUtils],
    [MapViewUtils]) and [MapTileCuller]. *)
Class HarpUtils `{ThreeJs} : Type := {
  getKeyForTileKeyAndOffset : TileKey → Z → Z;
  extractAttitude_pitch : MapView → PerspectiveCamera → Q;
  MapTileCuller : Type;
  MapTileCuller_new : PerspectiveCamera → MapTileCuller;
  MapTileCuller_setup : PerspectiveCamera → MapTileCuller → MapTileCuller;
  frustumIntersectsTileBox : MapTileCuller → THREE.Box3 → bool
}.

(** ** TileKeyEntry *)

Record TileKeyEntry : Type := mkTileKeyEntry {
  tileKey : TileKey;
  area : Number;
  offset : Z;
  minElevation : Q;
  maxElevation : Q
}.

(** [getGeoBox] of the source: the box of the tile, moved by [offset] turns
    of 360 degrees of longitude. *)
Definition getGeoBox (tilingScheme : TilingScheme) (childTileKey : TileKey)
    (offset : Z) : GeoBox :=
  let geoBox := TilingScheme_getGeoBox tilingScheme childTileKey in
  let longitudeOffset := (360 * inject_Z offset)%Q in
  let ne := northEast geoBox in
  let sw := southWest geoBox in
  {| northEast := mkGeoCoordinates (latitude ne)
                    (longitude ne + longitudeOffset)%Q (altitude ne);
     southWest := mkGeoCoordinates (latitude sw)
                    (longitude sw + longitudeOffset)%Q (altitude sw) |}.


(** ** The class FrustumIntersection *)

Inductive AssertSite : Type :=
| assert_cachedTileEntry_defined
| assert_cachedTileEntry_area
| assert_child_unvisited.

Inductive Outcome (A : Type) : Type :=
| Returned (a : A)
| AssertionFailed (site : AssertSite)
| OutOfFuel.

Arguments Returned {A} a.
Arguments AssertionFailed {A} site.
Arguments OutOfFuel {A}.

(** The bounds handed to [computeSubTileArea]:
    [THREE.Box3 | OrientedBox3]. *)
Inductive TileBounds `{ThreeJs} : Type :=
| IsBox3 (b : THREE.Box3)
| IsOrientedBox3 (b : OrientedBox3).

(** Ghost record of one pass through the body of the loop over the children
    of a tile: the parent entry, the child, its composite key, the answer of
    the elevation source (if it was asked), the area found and whether the
    child was stored and pushed. *)
Record Candidate : Type := mkCandidate {
  cand_parent : TileKeyEntry;
  cand_tileKey : TileKey;
  cand_key : Z;
  cand_range : option ElevationRange;
  cand_area : Q;
  cand_pushed : bool
}.

(** The variables of [compute] that change in its loops.  [workList] has
    the top of the stack first.  [visited] is ghost, most recent first. *)
Record Traversal : Type := mkTraversal {
  tileKeyEntries : gmap Z TileKeyEntry;
  calculationFinal : bool;
  workList : list TileKeyEntry;
  visited : list Candidate
}.

(** [FrustumIntersection.Result], with the ghost record of the call. *)
Record Result : Type := mkResult {
  res_tileKeyEntries : gmap Z TileKeyEntry;
  res_calculationFinal : bool;
  res_visited : list Candidate
}.

Section FrustumIntersection.
Context `{HarpUtils}.

Record FrustumIntersection : Type := mkFrustumIntersection {
  m_frustum : Frustum;
  m_viewProjectionMatrix : Matrix4;
  m_mapTileCuller : MapTileCuller;
  m_rootTileKeys : list TileKeyEntry;
  m_tileKeyEntries : gmap Z TileKeyEntry;
  m_camera : PerspectiveCamera;
  mapView : MapView;
  m_extendedFrustumCulling : bool;
  m_tileWrappingEnabled : bool
}.

Definition FrustumIntersection_new (m_camera : PerspectiveCamera)
    (mapView : MapView) (m_extendedFrustumCulling m_tileWrappingEnabled : bool)
    : FrustumIntersection :=
  {| m_frustum := Frustum_new;
     m_viewProjectionMatrix := Matrix4_identity;
     m_mapTileCuller := MapTileCuller_new m_camera;
     m_rootTileKeys := [];
     m_tileKeyEntries := ∅;
     m_camera := m_camera;
     mapView := mapView;
     m_extendedFrustumCulling := m_extendedFrustumCulling;
     m_tileWrappingEnabled := m_tileWrappingEnabled |}.

Definition set_rootTileKeys (this : FrustumIntersection)
    (roots : list TileKeyEntry) : FrustumIntersection :=
  {| m_frustum := m_frustum this;
     m_viewProjectionMatrix := m_viewProjectionMatrix this;
     m_mapTileCuller := m_mapTileCuller this;
     m_rootTileKeys := roots;
     m_tileKeyEntries := m_tileKeyEntries this;
     m_camera := m_camera this;
     mapView := mapView this;
     m_extendedFrustumCulling := m_extendedFrustumCulling this;
     m_tileWrappingEnabled := m_tileWrappingEnabled this |}.

(** *** computeRequiredInitialRootTileKeys *)

Definition rootTileKey : TileKey := fromRowColumnLevel 0 0 0.

(** [new TileKeyEntry(rootTileKey, 0, offset, 0, 0)]. *)
Definition rootEntry (offset : Z) : TileKeyEntry :=
  mkTileKeyEntry rootTileKey (Num 0) offset 0 0.

Definition startOffset (this : FrustumIntersection)
    (worldCenter : THREE.Vector3) : Z :=
  let worldGeoPoint := unprojectPoint (projection (mapView this)) worldCenter in
  Math_round (longitude worldGeoPoint / 360).

(** [camera.aspect > 1 ? camera.aspect : 1 / camera.aspect]. *)
Definition aspect_atLeast1 (camera : PerspectiveCamera) : Q :=
  if Qltb 1 (aspect camera) then aspect camera else (1 / aspect camera)%Q.

Definition worldLengthHorizontal (this : FrustumIntersection) : Q :=
  let camera := m_camera this in
  let cameraPitch := extractAttitude_pitch (mapView this) camera in
  let aspect := aspect_atLeast1 camera in
  let totalAngleRad := (degToRad ((fov camera * aspect) / 2) + cameraPitch)%Q in
  let worldLengthHorizontalFull :=
    (Math_tan totalAngleRad * THREE.z (position camera))%Q in
  let worldLengthHorizontalSmallerHalf :=
    (Math_tan cameraPitch * THREE.z (position camera))%Q in
  (worldLengthHorizontalFull - worldLengthHorizontalSmallerHalf)%Q.

Definition offsetRange (this : FrustumIntersection)
    (worldCenter : THREE.Vector3) : Z :=
  let worldGeoPoint := unprojectPoint (projection (mapView this)) worldCenter in
  let worldLeftPoint :=
    THREE.mkVector3 (THREE.x worldCenter - worldLengthHorizontal this)
                    (THREE.y worldCenter) (THREE.z worldCenter) in
  let worldLeftGeoPoint :=
    unprojectPoint (projection (mapView this)) worldLeftPoint in
  clamp
    (Math_ceil
       (Qabs ((longitude worldGeoPoint - longitude worldLeftGeoPoint) / 360)
        * Math_SQRT2))
    0 7.

(** The [for] loop over the offsets; [fuel] bounds its iterations. *)
Fixpoint pushRootOffsets (fuel : nat) (offset last : Z)
    (rootTileKeys : list TileKeyEntry) : list TileKeyEntry :=
  match fuel with
  | O => rootTileKeys
  | S fuel' =>
      if (offset <=? last)%Z
      then pushRootOffsets fuel' (offset + 1)%Z last
             (rootTileKeys ++ [rootEntry offset])
      else rootTileKeys
  end.

Definition computeRequiredInitialRootTileKeys (this : FrustumIntersection)
    (worldCenter : THREE.Vector3) : FrustumIntersection :=
  let tileWrappingEnabled :=
    bool_decide (type (projection (mapView this)) = Planar) in
  if negb tileWrappingEnabled || negb (m_tileWrappingEnabled this)
  then set_rootTileKeys this [rootEntry 0]
  else
    let startOffset := startOffset this worldCenter in
    let offsetRange := offsetRange this worldCenter in
    set_rootTileKeys this
      (pushRootOffsets (Z.to_nat (2 * offsetRange + 1))
         (- offsetRange + startOffset)%Z (offsetRange + startOffset)%Z []).

(** *** updateFrustum *)

Definition updateFrustum (this : FrustumIntersection)
    (projectionMatrixOverride : option Matrix4) : FrustumIntersection :=
  let vp :=
    multiplyMatrices
      (match projectionMatrixOverride with
       | Some m => m
       | None => projectionMatrix (m_camera this)
       end)
      (matrixWorldInverse (m_camera this)) in
  let this1 :=
    {| m_frustum := setFromMatrix vp;
       m_viewProjectionMatrix := vp;
       m_mapTileCuller :=
         if m_extendedFrustumCulling this
         then MapTileCuller_setup (m_camera this) (m_mapTileCuller this)
         else m_mapTileCuller this;
       m_rootTileKeys := m_rootTileKeys this;
       m_tileKeyEntries := m_tileKeyEntries this;
       m_camera := m_camera this;
       mapView := mapView this;
       m_extendedFrustumCulling := m_extendedFrustumCulling this;
       m_tileWrappingEnabled := m_tileWrappingEnabled this |} in
  computeRequiredInitialRootTileKeys this1 (position (m_camera this1)).

(** *** computeSubTileArea *)

Definition vector3_zero : THREE.Vector3 := THREE.mkVector3 0 0 0.

(** The four ground corners of the box through the view projection matrix,
    followed by [contour.push(contour[0])]. *)
Definition contour (this : FrustumIntersection) (tileBounds : THREE.Box3)
    : list THREE.Vector3 :=
  let lo := THREE.min tileBounds in
  let hi := THREE.max tileBounds in
  let m := m_viewProjectionMatrix this in
  let contour :=
    [ applyMatrix4 (THREE.mkVector3 (THREE.x lo) (THREE.y lo) 0) m;
      applyMatrix4 (THREE.mkVector3 (THREE.x hi) (THREE.y lo) 0) m;
      applyMatrix4 (THREE.mkVector3 (THREE.x hi) (THREE.y hi) 0) m;
      applyMatrix4 (THREE.mkVector3 (THREE.x lo) (THREE.y hi) 0) m ] in
  contour ++ [nth 0 contour vector3_zero].

(** [for (let p = n - 1, q = 0; q < n; p = q++) subTileArea += ...];
    [fuel] bounds the iterations. *)
Fixpoint contourLoop (contour : list THREE.Vector3) (n fuel p q : nat)
    (subTileArea : Q) : Q :=
  match fuel with
  | O => subTileArea
  | S fuel' =>
      if (q <? n)%nat
      then
        let cp := nth p contour vector3_zero in
        let cq := nth q contour vector3_zero in
        contourLoop contour n fuel' q (S q)
          (subTileArea
           + (THREE.x cp * THREE.y cq - THREE.x cq * THREE.y cp))%Q
      else subTileArea
  end.

Definition computeSubTileArea_Box3 (this : FrustumIntersection)
    (tileBounds : THREE.Box3) : Q :=
  if (negb (m_extendedFrustumCulling this)
      || frustumIntersectsTileBox (m_mapTileCuller this) tileBounds)
     && intersectsBox (m_frustum this) tileBounds
  then
    let contour := contour this tileBounds in
    let n := length contour in
    let subTileArea := contourLoop contour n n (n - 1) 0 0 in
    Qabs (subTileArea * (1 # 2))
  else 0%Q.

Definition computeSubTileArea_OrientedBox3 (this : FrustumIntersection)
    (tileBounds : OrientedBox3) : Q :=
  if negb (intersects tileBounds (m_frustum this))
  then 0%Q
  else
    let center := getCenter tileBounds in
    let extents := extents tileBounds in
    let ex := THREE.x extents in
    let ey := THREE.y extents in
    let ez := THREE.z extents in
    let modelViewProjMatrix :=
      multiplyMatrices
        (multiplyMatrices (m_viewProjectionMatrix this)
           (makeTranslation (THREE.x center) (THREE.y center) (THREE.z center)))
        (getRotationMatrix tileBounds) in
    let projectedPoints :=
      [ applyMatrix4 (THREE.mkVector3 (- ex) (- ey) (- ez)) modelViewProjMatrix;
        applyMatrix4 (THREE.mkVector3 ex (- ey) (- ez)) modelViewProjMatrix;
        applyMatrix4 (THREE.mkVector3 ex ey (- ez)) modelViewProjMatrix;
        applyMatrix4 (THREE.mkVector3 (- ex) ey (- ez)) modelViewProjMatrix;
        applyMatrix4 (THREE.mkVector3 (- ex) (- ey) ez) modelViewProjMatrix;
        applyMatrix4 (THREE.mkVector3 ex (- ey) ez) modelViewProjMatrix;
        applyMatrix4 (THREE.mkVector3 ex ey ez) modelViewProjMatrix;
        applyMatrix4 (THREE.mkVector3 (- ex) ey ez) modelViewProjMatrix ] in
    let screenBox :=
      foldl (λ box point,
               THREE.expandByPoint box
                 (THREE.mkVector2 (THREE.x point) (THREE.y point)))
            None projectedPoints in
    let size := THREE.getSize screenBox in
    (THREE.x2 size * THREE.y2 size)%Q.

Definition computeSubTileArea (this : FrustumIntersection)
    (tileBounds : TileBounds) : Q :=
  match tileBounds with
  | IsBox3 b => computeSubTileArea_Box3 this b
  | IsOrientedBox3 b => computeSubTileArea_OrientedBox3 this b
  end.

(** *** compute *)

(** [dataSources.some((ds, i) => ds.shouldSubdivide(zoomLevels[i], tileKey))]. *)
Fixpoint someShouldSubdivide (dataSources : list DataSource)
    (zoomLevels : list Z) (i : nat) (tileKey : TileKey) : bool :=
  match dataSources with
  | [] => false
  | ds :: rest =>
      shouldSubdivide ds (zoomLevels !! i) tileKey
      || someShouldSubdivide rest zoomLevels (S i) tileKey
  end.

(** [elevationRangeSource !== undefined &&
     elevationRangeSource.getTilingScheme() === tilingScheme]. *)
Definition useElevationRangeSource (tilingScheme : TilingScheme)
    (elevationRangeSource : option ElevationRangeSource) : bool :=
  match elevationRangeSource with
  | None => false
  | Some src => bool_decide (ts_ref (getTilingScheme src) = ts_ref tilingScheme)
  end.

(** The answer of the elevation source for a child, when it is asked. *)
Definition queryElevation (tilingScheme : TilingScheme)
    (elevationRangeSource : option ElevationRangeSource)
    (childTileKey : TileKey) : option ElevationRange :=
  if useElevationRangeSource tilingScheme elevationRangeSource
  then match elevationRangeSource with
       | Some src => Some (getElevationRange src childTileKey)
       | None => None
       end
  else None.

(** The box of a child after the elevation range, if any, is written to its
    altitudes. *)
Definition childGeoBox (tilingScheme : TilingScheme)
    (range : option ElevationRange) (childTileKey : TileKey) (offset : Z)
    : GeoBox :=
  let geoBox := getGeoBox tilingScheme childTileKey offset in
  match range with
  | Some range =>
      {| southWest :=
           mkGeoCoordinates (latitude (southWest geoBox))
             (longitude (southWest geoBox)) (Some (range_minElevation range));
         northEast :=
           mkGeoCoordinates (latitude (northEast geoBox))
             (longitude (northEast geoBox)) (Some (range_maxElevation range)) |}
  | None => geoBox
  end.

Definition childArea (this : FrustumIntersection) (geoBox : GeoBox) : Q :=
  let obbIntersections :=
    bool_decide (type (projection (mapView this)) = Spherical) in
  if obbIntersections
  then computeSubTileArea this
         (IsOrientedBox3 (projectBox_OrientedBox3 (projection (mapView this)) geoBox))
  else computeSubTileArea this
         (IsBox3 (projectBox_Box3 (projection (mapView this)) geoBox)).

(** One pass through the body of
    [for (const childTileKey of tilingScheme.getSubTileKeys(tileKey))]. *)
Definition visitChild (this : FrustumIntersection)
    (tilingScheme : TilingScheme)
    (elevationRangeSource : option ElevationRangeSource)
    (tileEntry : TileKeyEntry) (childTileKey : TileKey) (t : Traversal)
    : Outcome Traversal :=
  let offset := offset tileEntry in
  let tileKeyAndOffset := getKeyForTileKeyAndOffset childTileKey offset in
  match tileKeyEntries t !! tileKeyAndOffset with
  | Some _ => AssertionFailed assert_child_unvisited
  | None =>
      let range := queryElevation tilingScheme elevationRangeSource childTileKey in
      let geoBox := childGeoBox tilingScheme range childTileKey offset in
      let calculationFinal :=
        match range with
        | Some range =>
            calculationFinal t
            && bool_decide (calculationStatus range = FinalPrecise)
        | None => calculationFinal t
        end in
      let subTileArea := childArea this geoBox in
      if Qltb 0 subTileArea
      then
        let subTileEntry :=
          mkTileKeyEntry childTileKey (Num subTileArea) offset
            (default0 (altitude (southWest geoBox)))
            (default0 (altitude (northEast geoBox))) in
        Returned
          {| tileKeyEntries := <[tileKeyAndOffset := subTileEntry]> (tileKeyEntries t);
             calculationFinal := calculationFinal;
             workList := subTileEntry :: workList t;
             visited :=
               mkCandidate tileEntry childTileKey tileKeyAndOffset range
                 subTileArea true :: visited t |}
      else
        Returned
          {| tileKeyEntries := tileKeyEntries t;
             calculationFinal := calculationFinal;
             workList := workList t;
             visited :=
               mkCandidate tileEntry childTileKey tileKeyAndOffset range
                 subTileArea false :: visited t |}
  end.

Fixpoint visitChildren (this : FrustumIntersection)
    (tilingScheme : TilingScheme)
    (elevationRangeSource : option ElevationRangeSource)
    (tileEntry : TileKeyEntry) (children : list TileKey) (t : Traversal)
    : Outcome Traversal :=
  match children with
  | [] => Returned t
  | childTileKey :: rest =>
      match visitChild this tilingScheme elevationRangeSource tileEntry
              childTileKey t with
      | Returned t' =>
          visitChildren this tilingScheme elevationRangeSource tileEntry rest t'
      | AssertionFailed site => AssertionFailed site
      | OutOfFuel => OutOfFuel
      end
  end.

(** The body of [while (workList.length > 0)], after [workList.pop()] gave
    [tileEntry] and left [t]. *)
Definition visitEntry (this : FrustumIntersection)
    (tilingScheme : TilingScheme) (maxTileLevel : Z)
    (elevationRangeSource : option ElevationRangeSource)
    (zoomLevels : list Z) (dataSources : list DataSource)
    (tileEntry : TileKeyEntry) (t : Traversal) : Outcome Traversal :=
  let tileKey := tileKey tileEntry in
  if (maxTileLevel <? Z.of_nat (level tileKey))%Z then Returned t
  else if negb (someShouldSubdivide dataSources zoomLevels 0 tileKey)
  then Returned t
  else
    let uniqueKey := getKeyForTileKeyAndOffset tileKey (offset tileEntry) in
    match tileKeyEntries t !! uniqueKey with
    | None => AssertionFailed assert_cachedTileEntry_defined
    | Some cachedTileEntry =>
        if negb (Number_gt0 (area cachedTileEntry))
        then AssertionFailed assert_cachedTileEntry_area
        else visitChildren this tilingScheme elevationRangeSource tileEntry
               (getSubTileKeys tilingScheme tileKey) t
    end.

(** The [while] loop; [fuel] bounds the number of entries popped.  The loop
    runs on a non-empty work list, so [workList.pop()] is never [undefined]
    and the [continue] guarding that case is not reached. *)
Fixpoint traverse (this : FrustumIntersection)
    (tilingScheme : TilingScheme) (maxTileLevel : Z)
    (elevationRangeSource : option ElevationRangeSource)
    (zoomLevels : list Z) (dataSources : list DataSource)
    (fuel : nat) (t : Traversal) : Outcome Traversal :=
  match workList t with
  | [] => Returned t
  | tileEntry :: rest =>
      match fuel with
      | O => OutOfFuel
      | S fuel' =>
          match visitEntry this tilingScheme maxTileLevel elevationRangeSource
                  zoomLevels dataSources tileEntry
                  (mkTraversal (tileKeyEntries t) (calculationFinal t) rest
                     (visited t)) with
          | Returned t' =>
              traverse this tilingScheme maxTileLevel elevationRangeSource
                zoomLevels dataSources fuel' t'
          | AssertionFailed site => AssertionFailed site
          | OutOfFuel => OutOfFuel
          end
      end
  end.

(** [new TileKeyEntry(item.tileKey, Infinity, item.offset,
     item.minElevation, item.maxElevation)]. *)
Definition unboundedEntry (item : TileKeyEntry) : TileKeyEntry :=
  mkTileKeyEntry (tileKey item) Infinity (offset item)
    (minElevation item) (maxElevation item).

(** The first loop of [compute], over [m_rootTileKeys], on the cleared map. *)
Definition setRootEntries (rootTileKeys : list TileKeyEntry)
    (entries : gmap Z TileKeyEntry) : gmap Z TileKeyEntry :=
  foldl (λ m item,
           <[getKeyForTileKeyAndOffset (tileKey item) (offset item)
               := unboundedEntry item]> m)
        entries rootTileKeys.

Definition initialTraversal (this : FrustumIntersection) : Traversal :=
  {| tileKeyEntries := setRootEntries (m_rootTileKeys this) ∅;
     calculationFinal := true;
     workList := rev (m_rootTileKeys this);
     visited := [] |}.

(** [compute].  The map returned is the object's own [m_tileKeyEntries],
    cleared on entry: what it held before the call does not reach the
    result, which is why the embedding starts from the empty map and returns
    the result alone. *)
Definition compute (this : FrustumIntersection)
    (tilingScheme : TilingScheme) (maxTileLevel : Z)
    (elevationRangeSource : option ElevationRangeSource)
    (zoomLevels : list Z) (dataSources : list DataSource)
    (fuel : nat) : Outcome Result :=
  match traverse this tilingScheme maxTileLevel elevationRangeSource
          zoomLevels dataSources fuel (initialTraversal this) with
  | Returned t =>
      Returned (mkResult (tileKeyEntries t) (calculationFinal t) (visited t))
  | AssertionFailed site => AssertionFailed site
  | OutOfFuel => OutOfFuel
  end.

End FrustumIntersection.

(** ** Definitions for the statements

    Second definitions that follow the words of the specification (the
    shoelace sum, the rejection of a box, the offset range), to be compared
    with the code embedded above, and the predicates the statements use. *)

Section Readings.
Context `{HarpUtils}.

(** The cross term of two consecutive vertices of a contour. *)
Definition cross (p q : THREE.Vector3) : Q :=
  (THREE.x p * THREE.y q - THREE.x q * THREE.y p)%Q.

(** The signed shoelace sum over the closed contour of four vertices. *)
Definition shoelace4 (a b c d : THREE.Vector3) : Q :=
  (cross a b + cross b c + cross c d + cross d a)%Q.

(** The ground corner [(px, py, 0)] on the screen. *)
Definition groundCorner (this : FrustumIntersection) (px py : Q)
    : THREE.Vector3 :=
  applyMatrix4 (THREE.mkVector3 px py 0) (m_viewProjectionMatrix this).

(** The box is rejected by the pre-culler, which is asked only when
    extended culling is on, or by the frustum test. *)
Definition rejected (this : FrustumIntersection) (tileBounds : THREE.Box3)
    : bool :=
  (m_extendedFrustumCulling this
   && negb (frustumIntersectsTileBox (m_mapTileCuller this) tileBounds))
  || negb (intersectsBox (m_frustum this) tileBounds).

(** The aspect ratio with the reciprocal taken when it is below 1. *)
Definition aspectClamped (camera : PerspectiveCamera) : Q :=
  if Qltb (aspect camera) 1 then (1 / aspect camera)%Q else aspect camera.

Definition halfFovHorizontal (camera : PerspectiveCamera) : Q :=
  degToRad (fov camera * aspectClamped camera / 2).

(** tan(halfFovHorizontal + pitch) * height - tan(pitch) * height. *)
Definition horizontalReach (this : FrustumIntersection) : Q :=
  let camera := m_camera this in
  let pitch := extractAttitude_pitch (mapView this) camera in
  let height := THREE.z (position camera) in
  (Math_tan (halfFovHorizontal camera + pitch) * height
   - Math_tan pitch * height)%Q.

(** The longitude of the point displaced by the reach. *)
Definition secondLongitude (this : FrustumIntersection)
    (worldCenter : THREE.Vector3) : Q :=
  longitude
    (unprojectPoint (projection (mapView this))
       (THREE.mkVector3 (THREE.x worldCenter - horizontalReach this)
          (THREE.y worldCenter) (THREE.z worldCenter))).

(** ceil(|longitude delta| / 360 * sqrt 2), clamped to [0, 7]. *)
Definition offsetRangeAsStated (this : FrustumIntersection)
    (worldCenter : THREE.Vector3) : Z :=
  let lon :=
    longitude (unprojectPoint (projection (mapView this)) worldCenter) in
  clamp
    (Math_ceil
       (Qabs (lon - secondLongitude this worldCenter) / 360 * Math_SQRT2))
    0 7.

(** The elevation query of a recorded child was final, or none was made. *)
Definition queryFinal (c : Candidate) : bool :=
  match cand_range c with
  | Some range => bool_decide (calculationStatus range = FinalPrecise)
  | None => true
  end.

(** The entry [compute] stores for a recorded child it keeps. *)
Definition candidateEntry (tilingScheme : TilingScheme) (c : Candidate)
    : TileKeyEntry :=
  let geoBox :=
    childGeoBox tilingScheme (cand_range c) (cand_tileKey c)
      (offset (cand_parent c)) in
  mkTileKeyEntry (cand_tileKey c) (Num (cand_area c)) (offset (cand_parent c))
    (default0 (altitude (southWest geoBox)))
    (default0 (altitude (northEast geoBox))).

(** The tiling scheme is a tree: a child is one level below its parent, the
    children of a tile are distinct and a tile has one parent. *)
Definition TreeScheme (tilingScheme : TilingScheme) : Prop :=
  (∀ k c, c ∈ getSubTileKeys tilingScheme k → level c = S (level k))
  ∧ (∀ k, NoDup (getSubTileKeys tilingScheme k))
  ∧ (∀ k1 k2 c, c ∈ getSubTileKeys tilingScheme k1 →
       c ∈ getSubTileKeys tilingScheme k2 → k1 = k2).

(** The composite key tells apart the tiles down to [maxLevel] at the
    offsets [offsets]. *)
Definition KeyInjective (maxLevel : nat) (offsets : list Z) : Prop :=
  ∀ k1 o1 k2 o2,
    (level k1 ≤ maxLevel)%nat → (level k2 ≤ maxLevel)%nat →
    o1 ∈ offsets → o2 ∈ offsets →
    getKeyForTileKeyAndOffset k1 o1 = getKeyForTileKeyAndOffset k2 o2 →
    k1 = k2 ∧ o1 = o2.

(** The root entries are those the selector writes: level 0 entries of
    distinct offsets. *)
Definition RootsSelected (this : FrustumIntersection) (offsets : list Z)
    : Prop :=
  NoDup offsets ∧ m_rootTileKeys this = rootEntry <$> offsets.

(** The number of entries the loop of [compute] pops below an entry of tile
    [k] that is [depth] levels above the deepest level stored. *)
Fixpoint subtreeSize (tilingScheme : TilingScheme) (depth : nat) (k : TileKey)
    : nat :=
  match depth with
  | O => 1
  | S depth' =>
      S (sum_list_with (subtreeSize tilingScheme depth')
           (getSubTileKeys tilingScheme k))
  end.

Definition entryWeight (tilingScheme : TilingScheme) (maxTileLevel : Z)
    (e : TileKeyEntry) : nat :=
  subtreeSize tilingScheme (S (Z.to_nat maxTileLevel) - level (tileKey e))
    (tileKey e).

Definition workWeight (tilingScheme : TilingScheme) (maxTileLevel : Z)
    (l : list TileKeyEntry) : nat :=
  sum_list_with (entryWeight tilingScheme maxTileLevel) l.

End Readings.

(** ** The traversal seen through its ghost record *)

Section Invariants.
Context `{HarpUtils}.
Variables (this : FrustumIntersection) (tilingScheme : TilingScheme)
  (maxTileLevel : Z) (elevationRangeSource : option ElevationRangeSource)
  (zoomLevels : list Z) (dataSources : list DataSource).

(** The composite key of an entry. *)
Definition entryKey (e : TileKeyEntry) : Z :=
  getKeyForTileKeyAndOffset (tileKey e) (offset e).

(** The tile and offset of an entry. *)
Definition entryPair (e : TileKeyEntry) : TileKey * Z := (tileKey e, offset e).

(** The tile and offset of a recorded child. *)
Definition candidatePair (c : Candidate) : TileKey * Z :=
  (cand_tileKey c, offset (cand_parent c)).

(** What one pass through the loop body records for the child
    [childTileKey] of [tileEntry]. *)
Definition childCandidate (tileEntry : TileKeyEntry) (childTileKey : TileKey)
    : Candidate :=
  let range := queryElevation tilingScheme elevationRangeSource childTileKey in
  let subTileArea :=
    childArea this
      (childGeoBox tilingScheme range childTileKey (offset tileEntry)) in
  mkCandidate tileEntry childTileKey
    (getKeyForTileKeyAndOffset childTileKey (offset tileEntry)) range
    subTileArea (Qltb 0 subTileArea).

(** The effect of one pass on the variables of the loop. *)
Definition applyCandidate (c : Candidate) (t : Traversal) : Traversal :=
  {| tileKeyEntries :=
       if cand_pushed c
       then <[cand_key c := candidateEntry tilingScheme c]> (tileKeyEntries t)
       else tileKeyEntries t;
     calculationFinal := calculationFinal t && queryFinal c;
     workList :=
       if cand_pushed c
       then candidateEntry tilingScheme c :: workList t
       else workList t;
     visited := c :: visited t |}.

(** [compute] goes below the entry: its level is within [maxTileLevel] and
    some data source wants it subdivided. *)
Definition subdivided (e : TileKeyEntry) : bool :=
  andb (negb (maxTileLevel <? Z.of_nat (level (tileKey e)))%Z)
       (someShouldSubdivide dataSources zoomLevels 0 (tileKey e)).

(** The entries that were on the work list at some time: the roots and the
    children stored. *)
Definition wasPushed (t : Traversal) (e : TileKeyEntry) : Prop :=
  e ∈ m_rootTileKeys this
  ∨ ∃ c, c ∈ visited t ∧ cand_pushed c = true
         ∧ e = candidateEntry tilingScheme c.

(** The loop is through with the entry: it was not subdivided, or each of
    the first [n] children (all of them, for [n] large) is recorded. *)
Definition childrenVisited (t : Traversal) (e : TileKeyEntry)
    (children : list TileKey) : Prop :=
  ∀ k, k ∈ children → childCandidate e k ∈ visited t.

Definition finished (t : Traversal) (e : TileKeyEntry) : Prop :=
  subdivided e = false
  ∨ childrenVisited t e (getSubTileKeys tilingScheme (tileKey e)).

(** What holds of the variables of [compute] whenever the loop over the
    children of [current] has gone through [done] (outside of that loop:
    no [current]). *)
Record Inv (current : option TileKeyEntry) (done : list TileKey)
    (t : Traversal) : Prop := mkInv {
  inv_final :
    calculationFinal t = forallb queryFinal (visited t);
  inv_candidate :
    ∀ c, c ∈ visited t →
      c = childCandidate (cand_parent c) (cand_tileKey c)
      ∧ cand_tileKey c ∈ getSubTileKeys tilingScheme (tileKey (cand_parent c))
      ∧ subdivided (cand_parent c) = true
      ∧ wasPushed t (cand_parent c);
  inv_entries :
    ∀ κ e, tileKeyEntries t !! κ = Some e →
      (∃ item, item ∈ m_rootTileKeys this ∧ κ = entryKey item
               ∧ e = unboundedEntry item)
      ∨ (∃ c, c ∈ visited t ∧ cand_pushed c = true ∧ κ = cand_key c
              ∧ e = candidateEntry tilingScheme c);
  inv_roots :
    ∀ item, item ∈ m_rootTileKeys this →
      ∃ item', item' ∈ m_rootTileKeys this
               ∧ entryKey item' = entryKey item
               ∧ tileKeyEntries t !! entryKey item = Some (unboundedEntry item');
  inv_stored :
    ∀ c, c ∈ visited t → cand_pushed c = true →
      tileKeyEntries t !! cand_key c = Some (candidateEntry tilingScheme c);
  inv_fresh :
    NoDup (cand_key <$> filter (λ c, cand_pushed c = true) (visited t));
  inv_workList :
    ∀ e, e ∈ workList t → wasPushed t e;
  inv_finished :
    ∀ e, wasPushed t e →
      e ∈ workList t ∨ finished t e
      ∨ (current = Some e ∧ childrenVisited t e done)
}.

(** The part that needs the tiling scheme to be a tree and the keys to be
    injective: no tile and offset is on the work list twice or recorded
    twice, and the parent of a recorded child has left the work list. *)
Record Uniq (current : option TileKeyEntry) (done : list TileKey)
    (t : Traversal) : Prop := mkUniq {
  uniq_workList : NoDup (entryPair <$> workList t);
  uniq_visited : NoDup (candidatePair <$> visited t);
  uniq_current :
    ∀ e, current = Some e → entryPair e ∉ (entryPair <$> workList t);
  uniq_parent :
    ∀ c, c ∈ visited t →
      ((entryPair (cand_parent c) ∉ (entryPair <$> workList t))
       ∧ (∀ e, current = Some e → entryPair (cand_parent c) ≠ entryPair e))
      ∨ (∃ e, current = Some e ∧ entryPair (cand_parent c) = entryPair e
              ∧ cand_tileKey c ∈ done)
}.

(** Every offset in the variables of the loop is the offset of a root. *)
Definition offsetsFromRoots (t : Traversal) : Prop :=
  (∀ κ e, tileKeyEntries t !! κ = Some e →
          offset e ∈ offset <$> m_rootTileKeys this)
  ∧ (∀ e, e ∈ workList t → offset e ∈ offset <$> m_rootTileKeys this)
  ∧ (∀ c, c ∈ visited t →
          offset (cand_parent c) ∈ offset <$> m_rootTileKeys this).

(** What the loop over the children of [e] keeps, [rest] being the work
    list below [e]. *)
Definition childrenInv (e : TileKeyEntry) (rest : list TileKeyEntry)
    (done : list TileKey) (t : Traversal) : Prop :=
  Inv (Some e) done t
  ∧ Uniq (Some e) done t ∧ offsetsFromRoots t
  ∧ wasPushed t e
  ∧ (workWeight tilingScheme maxTileLevel (workList t)
     ≤ workWeight tilingScheme maxTileLevel rest
       + sum_list_with
           (subtreeSize tilingScheme
              (Z.to_nat maxTileLevel - level (tileKey e))) done)%nat.

(** What the [while] loop keeps. *)
Definition traversalInv (t : Traversal) : Prop :=
  Inv None [] t
  ∧ Uniq None [] t ∧ offsetsFromRoots t.

(** Fuel that suffices for [compute]: the number of roots times the size
    of the tree below a root. *)
Definition fuelBound : nat :=
  length (m_rootTileKeys this)
  * subtreeSize tilingScheme (S (Z.to_nat maxTileLevel)) rootTileKey.


End Invariants.

(** ** Further definitions for the statements *)

Section MoreDefinitions.
Context `{HarpUtils}.

(** The matrix [computeSubTileArea] takes the corners of an oriented box
    through: view projection, translation to the centre, rotation. *)
Definition orientedBoxMatrix (this : FrustumIntersection)
    (tileBounds : OrientedBox3) : Matrix4 :=
  let center := getCenter tileBounds in
  multiplyMatrices
    (multiplyMatrices (m_viewProjectionMatrix this)
       (makeTranslation (THREE.x center) (THREE.y center) (THREE.z center)))
    (getRotationMatrix tileBounds).

(** The eight corners of an oriented box on the screen, in the order of the
    source. *)
Definition projectedPoints (this : FrustumIntersection)
    (tileBounds : OrientedBox3) : list THREE.Vector3 :=
  let m := orientedBoxMatrix this tileBounds in
  let ex := THREE.x (extents tileBounds) in
  let ey := THREE.y (extents tileBounds) in
  let ez := THREE.z (extents tileBounds) in
  [ applyMatrix4 (THREE.mkVector3 (- ex) (- ey) (- ez)) m;
    applyMatrix4 (THREE.mkVector3 ex (- ey) (- ez)) m;
    applyMatrix4 (THREE.mkVector3 ex ey (- ez)) m;
    applyMatrix4 (THREE.mkVector3 (- ex) ey (- ez)) m;
    applyMatrix4 (THREE.mkVector3 (- ex) (- ey) ez) m;
    applyMatrix4 (THREE.mkVector3 ex (- ey) ez) m;
    applyMatrix4 (THREE.mkVector3 ex ey ez) m;
    applyMatrix4 (THREE.mkVector3 (- ex) ey ez) m ].

(** [screenBox.expandByPoint] over a list of points, from the box [box]. *)
Definition expandByPoints (box : THREE.Box2) (points : list THREE.Vector3)
    : THREE.Box2 :=
  foldl (λ box point,
           THREE.expandByPoint box
             (THREE.mkVector2 (THREE.x point) (THREE.y point)))
        box points.

(** The point lies in the box, borders included. *)
Definition inBox2 (box : THREE.Box2) (px py : Q) : Prop :=
  match box with
  | None => False
  | Some (lo, hi) =>
      (THREE.x2 lo <= px)%Q ∧ (px <= THREE.x2 hi)%Q
      ∧ (THREE.y2 lo <= py)%Q ∧ (py <= THREE.y2 hi)%Q
  end.

(** A box that is empty or has its corners in order. *)
Definition orderedBox2 (box : THREE.Box2) : Prop :=
  match box with
  | None => True
  | Some (lo, hi) =>
      (THREE.x2 lo <= THREE.x2 hi)%Q ∧ (THREE.y2 lo <= THREE.y2 hi)%Q
  end.

(** Each side of the box goes through one of the points; the empty box has
    seen no point. *)
Definition tightBox2 (box : THREE.Box2) (points : list THREE.Vector3) : Prop :=
  match box with
  | None => points = []
  | Some (lo, hi) =>
      (∃ p, p ∈ points ∧ THREE.x p = THREE.x2 lo)
      ∧ (∃ p, p ∈ points ∧ THREE.x p = THREE.x2 hi)
      ∧ (∃ p, p ∈ points ∧ THREE.y p = THREE.y2 lo)
      ∧ (∃ p, p ∈ points ∧ THREE.y p = THREE.y2 hi)
  end.

(** The result of [compute] when nothing is subdivided: the root entries,
    unbounded, and nothing else. *)
Definition rootsOnly (this : FrustumIntersection) : Result :=
  mkResult (setRootEntries (m_rootTileKeys this) ∅) true [].

End MoreDefinitions.
(** ** A concrete setting

    A quadtree over longitude and latitude, a planar projection that maps
    degrees to world units one to one, a frustum that sees the boxes
    reaching west of the prime meridian, and the identity as view
    projection matrix. *)

Module Example.

#[local] Instance three : ThreeJs := {|
  Matrix4 := unit;
  Frustum := unit;
  Matrix4_identity := tt;
  Frustum_new := tt;
  multiplyMatrices := λ _ _, tt;
  makeTranslation := λ _ _ _, tt;
  applyMatrix4 := λ v _, v;
  setFromMatrix := λ _, tt;
  intersectsBox := λ _ b, Qltb (THREE.x (THREE.min b)) 0;
  Math_tan := λ a, a;
  degToRad := λ d, (d * (355 # 20340))%Q;
  Math_SQRT2 := (14142 # 10000)%Q
|}.

#[local] Instance harp : HarpUtils := {|
  getKeyForTileKeyAndOffset :=
    λ k o, Z.pos (encode (row k, column k, level k, o));
  extractAttitude_pitch := λ _ _, 0%Q;
  MapTileCuller := unit;
  MapTileCuller_new := λ _, tt;
  MapTileCuller_setup := λ _ c, c;
  frustumIntersectsTileBox := λ _ _, true
|}.

Definition quadGeoBox (k : TileKey) : GeoBox :=
  let n := inject_Z (2 ^ Z.of_nat (level k)) in
  let w := (360 / n)%Q in
  let h := (180 / n)%Q in
  {| southWest :=
       mkGeoCoordinates (-90 + h * inject_Z (Z.of_nat (row k)))
         (-180 + w * inject_Z (Z.of_nat (column k))) (Some 0%Q);
     northEast :=
       mkGeoCoordinates (-90 + h * inject_Z (Z.of_nat (S (row k))))
         (-180 + w * inject_Z (Z.of_nat (S (column k)))) (Some 0%Q) |}.

Definition quadSubTileKeys (k : TileKey) : list TileKey :=
  [ fromRowColumnLevel (2 * row k) (2 * column k) (S (level k));
    fromRowColumnLevel (2 * row k) (2 * column k + 1) (S (level k));
    fromRowColumnLevel (2 * row k + 1) (2 * column k) (S (level k));
    fromRowColumnLevel (2 * row k + 1) (2 * column k + 1) (S (level k)) ].

Definition quadtree : TilingScheme := mkTilingScheme 1 quadSubTileKeys quadGeoBox.

(** Another tiling scheme object. *)
Definition otherScheme : TilingScheme := mkTilingScheme 2 quadSubTileKeys quadGeoBox.

Definition projectGeoBox (g : GeoBox) : THREE.Box3 :=
  THREE.mkBox3
    (THREE.mkVector3 (longitude (southWest g)) (latitude (southWest g))
       (default0 (altitude (southWest g))))
    (THREE.mkVector3 (longitude (northEast g)) (latitude (northEast g))
       (default0 (altitude (northEast g)))).

Definition projectGeoBoxOriented (g : GeoBox) : OrientedBox3 :=
  let b := projectGeoBox g in
  mkOrientedBox3
    (THREE.mkVector3
       ((THREE.x (THREE.min b) + THREE.x (THREE.max b)) / 2)
       ((THREE.y (THREE.min b) + THREE.y (THREE.max b)) / 2) 0)
    (THREE.mkVector3
       ((THREE.x (THREE.max b) - THREE.x (THREE.min b)) / 2)
       ((THREE.y (THREE.max b) - THREE.y (THREE.min b)) / 2) 0)
    tt
    (λ _, Qltb (THREE.x (THREE.min b)) 0).

Definition unproject (v : THREE.Vector3) : GeoCoordinates :=
  mkGeoCoordinates (THREE.y v) (THREE.x v) (Some (THREE.z v)).

Definition planar : Projection :=
  mkProjection Planar projectGeoBox projectGeoBoxOriented unproject.

Definition spherical : Projection :=
  mkProjection Spherical projectGeoBox projectGeoBoxOriented unproject.

Definition camera : PerspectiveCamera :=
  mkPerspectiveCamera (THREE.mkVector3 0 0 500) 40 2 tt tt.

(** Planar projection, tile wrapping off. *)
Definition flat : FrustumIntersection :=
  updateFrustum (FrustumIntersection_new camera (mkMapView planar) false false)
    None.

(** Planar projection, tile wrapping on. *)
Definition wrapping : FrustumIntersection :=
  updateFrustum (FrustumIntersection_new camera (mkMapView planar) true true)
    None.

(** Spherical projection, tile wrapping on. *)
Definition globe : FrustumIntersection :=
  updateFrustum (FrustumIntersection_new camera (mkMapView spherical) false true)
    None.

Definition alwaysSubdivide : DataSource := mkDataSource (λ _ _, true).

(** An elevation source of the quadtree whose ranges are final west of the
    prime meridian and approximate east of it. *)
Definition elevation : ElevationRangeSource :=
  mkElevationRangeSource quadtree
    (λ k, if (column k <? 2 ^ level k / 2)%nat
          then mkElevationRange 0 100 FinalPrecise
          else mkElevationRange 0 100 Approximate).

(** An elevation source of the other tiling scheme. *)
Definition foreignElevation : ElevationRangeSource :=
  mkElevationRangeSource otherScheme (λ _, mkElevationRange 5 50 Approximate).

(** The offsets of the roots of [wrapping]. *)
Definition wrapOffsets : list Z := [-2; -1; 0; 1; 2]%Z.

(** Two boxes of the ground plane, west and east of the prime meridian. *)
Definition westBox : THREE.Box3 :=
  THREE.mkBox3 (THREE.mkVector3 (-180) (-90) 0) (THREE.mkVector3 0 0 0).

Definition eastBox : THREE.Box3 :=
  THREE.mkBox3 (THREE.mkVector3 0 (-90) 0) (THREE.mkVector3 180 0 0).

(** The checks made on the record of a call, as booleans. *)
Definition storedFinal (c : Candidate) : bool :=
  implb (cand_pushed c) (queryFinal c).

Definition prunedApproximate (entries : gmap Z TileKeyEntry) (c : Candidate)
    : bool :=
  negb (cand_pushed c) && Qeq_bool (cand_area c) 0 && negb (queryFinal c)
  && match entries !! cand_key c with
     | None => true
     | Some _ => false
     end.

(** A box of the ground plane without width. *)
Definition thinBox : THREE.Box3 :=
  THREE.mkBox3 (THREE.mkVector3 (-90) (-90) 0) (THREE.mkVector3 (-90) 0 0).

(** The oriented boxes of the two southern children of the root tile. *)
Definition westOriented : OrientedBox3 :=
  projectGeoBoxOriented (quadGeoBox (fromRowColumnLevel 0 0 1)).

Definition eastOriented : OrientedBox3 :=
  projectGeoBoxOriented (quadGeoBox (fromRowColumnLevel 0 1 1)).

(** A tiling scheme that is no tree: a tile is among its own sub-tiles. *)
Definition loopScheme : TilingScheme :=
  mkTilingScheme 3 (λ k, quadSubTileKeys k ++ [k]) quadGeoBox.

End Example.

(** * Properties *)

(** ** Numbers *)

Lemma Qltb_lt (x y : Q) : Qltb x y = true ↔ (x < y)%Q.
Proof.
  unfold Qltb. rewrite negb_true_iff. split.
  - intros Hb. apply Qnot_le_lt. intros Hle.
    apply Qle_bool_iff in Hle. congruence.
  - intros Hlt. destruct (Qle_bool y x) eqn:E; [|reflexivity].
    apply Qle_bool_iff in E. exfalso. exact (Qlt_not_le _ _ Hlt E).
Qed.

Lemma Qltb_ge (x y : Q) : Qltb x y = false ↔ (y <= x)%Q.
Proof.
  unfold Qltb. rewrite negb_false_iff. apply Qle_bool_iff.
Qed.

Lemma clamp_bounds (v lo hi : Z) : (lo ≤ hi)%Z → (lo ≤ clamp v lo hi ≤ hi)%Z.
Proof. unfold clamp. lia. Qed.

Lemma elem_of_rev {A : Type} (x : A) (l : list A) : x ∈ rev l ↔ x ∈ l.
Proof. rewrite !list_elem_of_In. symmetry. apply in_rev. Qed.

(** ** The root key selector *)

Section RootSelector.
Context `{HarpUtils}.

Lemma pushRootOffsets_seqZ (fuel : nat) (offset last : Z)
    (acc : list TileKeyEntry) :
  (last - offset + 1 ≤ Z.of_nat fuel)%Z →
  pushRootOffsets fuel offset last acc
  = acc ++ map rootEntry (seqZ offset (last - offset + 1)).
Proof.
  revert offset acc. induction fuel as [|fuel IH]; intros offset acc Hfuel.
  - simpl. rewrite seqZ_nil by lia. simpl. by rewrite app_nil_r.
  - simpl. destruct (Z.leb_spec offset last) as [Hle|Hgt].
    + rewrite IH by lia. rewrite (seqZ_cons offset) by lia.
      replace (Z.succ offset) with (offset + 1)%Z by lia.
      replace (Z.pred (last - offset + 1)) with (last - (offset + 1) + 1)%Z
        by lia.
      by rewrite <- app_assoc.
    + rewrite seqZ_nil by lia. simpl. by rewrite app_nil_r.
Qed.

Lemma offsetRange_bounds (this : FrustumIntersection)
    (worldCenter : THREE.Vector3) :
  (0 ≤ offsetRange this worldCenter ≤ 7)%Z.
Proof. unfold offsetRange. apply clamp_bounds. lia. Qed.

Lemma rootTileKeys_noWrap (this : FrustumIntersection)
    (worldCenter : THREE.Vector3) :
  type (projection (mapView this)) ≠ Planar ∨ m_tileWrappingEnabled this = false →
  m_rootTileKeys (computeRequiredInitialRootTileKeys this worldCenter)
  = [rootEntry 0].
Proof.
  intros Hno. unfold computeRequiredInitialRootTileKeys.
  destruct Hno as [Hty|Hoff].
  - rewrite bool_decide_eq_false_2 by done. reflexivity.
  - rewrite Hoff. rewrite orb_true_r. reflexivity.
Qed.

Lemma rootTileKeys_wrap (this : FrustumIntersection)
    (worldCenter : THREE.Vector3) :
  type (projection (mapView this)) = Planar →
  m_tileWrappingEnabled this = true →
  m_rootTileKeys (computeRequiredInitialRootTileKeys this worldCenter)
  = map rootEntry
      (seqZ (startOffset this worldCenter - offsetRange this worldCenter)
         (2 * offsetRange this worldCenter + 1)).
Proof.
  intros Hty Hon. unfold computeRequiredInitialRootTileKeys.
  rewrite bool_decide_eq_true_2 by done. rewrite Hon. simpl.
  pose proof (offsetRange_bounds this worldCenter) as Hr.
  rewrite pushRootOffsets_seqZ by lia. simpl. f_equal. f_equal; lia.
Qed.

Lemma rootTileKeys_selected (this : FrustumIntersection)
    (worldCenter : THREE.Vector3) :
  ∃ offsets,
    RootsSelected (computeRequiredInitialRootTileKeys this worldCenter) offsets.
Proof.
  destruct (decide (type (projection (mapView this)) = Planar)) as [Hty|Hty];
    [destruct (m_tileWrappingEnabled this) eqn:Hon|].
  - eexists. split; [|by apply rootTileKeys_wrap]. apply NoDup_seqZ.
  - exists [0%Z]. split; [apply NoDup_singleton|].
    apply rootTileKeys_noWrap. by right.
  - exists [0%Z]. split; [apply NoDup_singleton|].
    apply rootTileKeys_noWrap. by left.
Qed.

(** C3. Without wraparound (the projection is not planar, or tile wrapping
    is off) the selector writes exactly one root entry, of level 0 and
    offset 0, whatever the camera.  With a planar projection and tile
    wrapping on it writes exactly [2 * offsetRange + 1] root entries, one for
    each consecutive offset from [startOffset - offsetRange] to
    [startOffset + offsetRange], where [startOffset] is the longitude of the
    camera divided by 360 and rounded, and [offsetRange] lies in [0, 7]. *)
Theorem root_selector_entries (this : FrustumIntersection)
    (worldCenter : THREE.Vector3) :
  let roots :=
    m_rootTileKeys (computeRequiredInitialRootTileKeys this worldCenter) in
  let s := startOffset this worldCenter in
  let r := offsetRange this worldCenter in
  (type (projection (mapView this)) ≠ Planar
   ∨ m_tileWrappingEnabled this = false →
   roots = [mkTileKeyEntry (fromRowColumnLevel 0 0 0) (Num 0) 0 0 0])
  ∧ (type (projection (mapView this)) = Planar
     ∧ m_tileWrappingEnabled this = true →
     s = Math_round
           (longitude (unprojectPoint (projection (mapView this)) worldCenter)
            / 360)
     ∧ (0 ≤ r ≤ 7)%Z
     ∧ Z.of_nat (length roots) = (2 * r + 1)%Z
     ∧ map offset roots = seqZ (s - r) (2 * r + 1)
     ∧ (∀ i : nat, (Z.of_nat i < 2 * r + 1)%Z →
          roots !! i = Some (rootEntry (s - r + Z.of_nat i)))
     ∧ Forall (λ e, tileKey e = fromRowColumnLevel 0 0 0) roots).
Proof.
  intros roots s r. split.
  - intros Hno. subst roots. by rewrite rootTileKeys_noWrap.
  - intros [Hty Hon].
    pose proof (offsetRange_bounds this worldCenter) as Hr. fold r in Hr.
    assert (Hroots : roots = map rootEntry (seqZ (s - r) (2 * r + 1))).
    { subst roots s r. by apply rootTileKeys_wrap. }
    split; [reflexivity|]. split; [exact Hr|].
    clearbody roots s r. subst roots.
    split; [|split; [|split]].
    + rewrite length_map, length_seqZ. lia.
    + rewrite map_map. simpl. apply map_id.
    + intros i Hi. rewrite list_lookup_fmap.
      rewrite lookup_seqZ_lt by lia. simpl. f_equal; f_equal; lia.
    + apply Forall_fmap, Forall_true. intros o. reflexivity.
Qed.

End RootSelector.

(** ** The offset range *)

Section OffsetRange.
Context `{HarpUtils}.

Lemma Qinv_of_one (a : Q) : (a == 1)%Q → (1 / a)%Q = a.
Proof.
  destruct a as [n d]. unfold Qeq. simpl. intros Hn.
  assert (n = Z.pos d) as -> by lia. reflexivity.
Qed.

Lemma aspect_atLeast1_clamped (camera : PerspectiveCamera) :
  aspect_atLeast1 camera = aspectClamped camera.
Proof.
  unfold aspect_atLeast1, aspectClamped.
  destruct (Qltb 1 (aspect camera)) eqn:Hgt;
    destruct (Qltb (aspect camera) 1) eqn:Hlt; try reflexivity.
  - apply Qltb_lt in Hgt, Hlt. exfalso.
    exact (Qlt_irrefl _ (Qlt_trans _ _ _ Hgt Hlt)).
  - apply Qltb_ge in Hgt, Hlt. apply Qinv_of_one. by apply Qle_antisym.
Qed.

Lemma aspectClamped_ge1 (camera : PerspectiveCamera) :
  (0 < aspect camera)%Q → (1 <= aspectClamped camera)%Q.
Proof.
  intros Hpos. unfold aspectClamped.
  destruct (Qltb (aspect camera) 1) eqn:Hlt.
  - apply Qltb_lt in Hlt. apply Qle_shift_div_l; [exact Hpos|].
    rewrite Qmult_1_l. by apply Qlt_le_weak.
  - by apply Qltb_ge in Hlt.
Qed.

Lemma worldLengthHorizontal_reach (this : FrustumIntersection) :
  worldLengthHorizontal this = horizontalReach this.
Proof.
  unfold worldLengthHorizontal, horizontalReach, halfFovHorizontal.
  by rewrite aspect_atLeast1_clamped.
Qed.

Lemma Qabs_div_360 (a : Q) : (Qabs (a / 360) == Qabs a / 360)%Q.
Proof. unfold Qdiv. rewrite Qabs_Qmult. reflexivity. Qed.

Lemma offsetRange_stated (this : FrustumIntersection)
    (worldCenter : THREE.Vector3) :
  offsetRange this worldCenter = offsetRangeAsStated this worldCenter.
Proof.
  unfold offsetRange, offsetRangeAsStated, secondLongitude, Math_ceil.
  rewrite worldLengthHorizontal_reach. f_equal.
  apply Qceiling_comp. by rewrite Qabs_div_360.
Qed.

(** C5. In the wraparound branch of the selector the offset range is the
    one described in words: with the aspect ratio replaced by its
    reciprocal when below 1 (so it is at least 1 for a positive aspect), the
    half horizontal angle is [degToRad (fov * aspect / 2)], the reach is
    [tan (halfFov + pitch) * height - tan pitch * height], the second
    longitude is that of the point moved west by the reach, and the range is
    [ceil (|delta| / 360 * sqrt 2)] clamped to [0, 7]; the roots written are
    those of this range. *)
Theorem offset_range_formula (this : FrustumIntersection)
    (worldCenter : THREE.Vector3) :
  type (projection (mapView this)) = Planar →
  m_tileWrappingEnabled this = true →
  let r := offsetRangeAsStated this worldCenter in
  offsetRange this worldCenter = r
  ∧ ((0 < aspect (m_camera this))%Q → (1 <= aspectClamped (m_camera this))%Q)
  ∧ (0 ≤ r ≤ 7)%Z
  ∧ m_rootTileKeys (computeRequiredInitialRootTileKeys this worldCenter)
    = map rootEntry (seqZ (startOffset this worldCenter - r) (2 * r + 1)).
Proof.
  intros Hty Hon r. subst r. rewrite <- offsetRange_stated.
  split; [reflexivity|]. split; [apply aspectClamped_ge1|].
  split; [apply offsetRange_bounds|]. by apply rootTileKeys_wrap.
Qed.

End OffsetRange.

(** ** The area estimator *)

Section AreaEstimator.
Context `{HarpUtils}.

Lemma computeSubTileArea_rejected (this : FrustumIntersection)
    (tileBounds : THREE.Box3) :
  rejected this tileBounds = true →
  computeSubTileArea this (IsBox3 tileBounds) = 0%Q.
Proof.
  unfold rejected. simpl. unfold computeSubTileArea_Box3.
  destruct (m_extendedFrustumCulling this),
    (frustumIntersectsTileBox (m_mapTileCuller this) tileBounds),
    (intersectsBox (m_frustum this) tileBounds); simpl; congruence.
Qed.

Lemma contourLoop_closed (a b c d : THREE.Vector3) :
  (contourLoop [a; b; c; d; a] 5 5 4 0 0 == shoelace4 a b c d)%Q.
Proof. simpl. unfold shoelace4, cross. ring. Qed.

Lemma computeSubTileArea_accepted (this : FrustumIntersection)
    (tileBounds : THREE.Box3) :
  rejected this tileBounds = false →
  let lo := THREE.min tileBounds in
  let hi := THREE.max tileBounds in
  (computeSubTileArea this (IsBox3 tileBounds)
   == Qabs (shoelace4 (groundCorner this (THREE.x lo) (THREE.y lo))
                      (groundCorner this (THREE.x hi) (THREE.y lo))
                      (groundCorner this (THREE.x hi) (THREE.y hi))
                      (groundCorner this (THREE.x lo) (THREE.y hi))) / 2)%Q.
Proof.
  intros Hrej lo hi. simpl. unfold computeSubTileArea_Box3.
  replace ((negb (m_extendedFrustumCulling this)
            || frustumIntersectsTileBox (m_mapTileCuller this) tileBounds)
           && intersectsBox (m_frustum this) tileBounds) with true.
  2:{ unfold rejected in Hrej.
      destruct (m_extendedFrustumCulling this),
        (frustumIntersectsTileBox (m_mapTileCuller this) tileBounds),
        (intersectsBox (m_frustum this) tileBounds); simpl in *; congruence. }
  unfold contour. cbn [app nth length Nat.sub].
  rewrite contourLoop_closed. rewrite Qabs_Qmult. reflexivity.
Qed.

(** C7. For an axis-aligned box the estimator returns 0 when the
    pre-culler (asked only under extended frustum culling) or the frustum
    test rejects the box; otherwise it returns half the absolute value of
    the signed shoelace sum over the closed contour of the four ground
    corners (z = 0) taken through the view projection matrix. *)
Theorem box_area_estimate (this : FrustumIntersection)
    (tileBounds : THREE.Box3) :
  let lo := THREE.min tileBounds in
  let hi := THREE.max tileBounds in
  let corner px py :=
    applyMatrix4 (THREE.mkVector3 px py 0) (m_viewProjectionMatrix this) in
  (rejected this tileBounds = true →
   computeSubTileArea this (IsBox3 tileBounds) = 0%Q)
  ∧ (rejected this tileBounds = false →
     (computeSubTileArea this (IsBox3 tileBounds)
      == Qabs (shoelace4 (corner (THREE.x lo) (THREE.y lo))
                         (corner (THREE.x hi) (THREE.y lo))
                         (corner (THREE.x hi) (THREE.y hi))
                         (corner (THREE.x lo) (THREE.y hi))) / 2)%Q).
Proof.
  intros lo hi corner. split.
  - apply computeSubTileArea_rejected.
  - intros Hrej. by apply computeSubTileArea_accepted.
Qed.

Lemma computeSubTileArea_Box3_nonneg (this : FrustumIntersection)
    (tileBounds : THREE.Box3) :
  (0 <= computeSubTileArea_Box3 this tileBounds)%Q.
Proof.
  unfold computeSubTileArea_Box3.
  destruct (_ && _); [apply Qabs_nonneg|apply Qle_refl].
Qed.

End AreaEstimator.

(** ** The loops of [compute] *)

Section Loops.
Context `{HarpUtils}.
Variables (this : FrustumIntersection) (tilingScheme : TilingScheme)
  (maxTileLevel : Z) (elevationRangeSource : option ElevationRangeSource)
  (zoomLevels : list Z) (dataSources : list DataSource).

Abbreviation visitChild' := (visitChild this tilingScheme elevationRangeSource).
Abbreviation visitChildren' :=
  (visitChildren this tilingScheme elevationRangeSource).
Abbreviation visitEntry' :=
  (visitEntry this tilingScheme maxTileLevel elevationRangeSource zoomLevels
     dataSources).
Abbreviation traverse' :=
  (traverse this tilingScheme maxTileLevel elevationRangeSource zoomLevels
     dataSources).
Abbreviation childCandidate' :=
  (childCandidate this tilingScheme elevationRangeSource).
Abbreviation applyCandidate' := (applyCandidate tilingScheme).
Abbreviation subdivided' := (subdivided maxTileLevel zoomLevels dataSources).

Lemma visitChild_unfold (e : TileKeyEntry) (k : TileKey) (t : Traversal) :
  visitChild' e k t
  = match tileKeyEntries t !! getKeyForTileKeyAndOffset k (offset e) with
    | Some _ => AssertionFailed assert_child_unvisited
    | None => Returned (applyCandidate' (childCandidate' e k) t)
    end.
Proof.
  unfold visitChild, applyCandidate, childCandidate, queryFinal.
  destruct (tileKeyEntries t !! _); [reflexivity|]. simpl.
  destruct (queryElevation _ _ _); destruct (Qltb 0 _);
    rewrite ?andb_true_r; reflexivity.
Qed.

Lemma visitChildren_inv (P : list TileKey → Traversal → Prop)
    (e : TileKeyEntry) (children : list TileKey) :
  (∀ done k rest t,
     children = done ++ k :: rest → P done t →
     tileKeyEntries t !! getKeyForTileKeyAndOffset k (offset e) = None →
     P (done ++ [k]) (applyCandidate' (childCandidate' e k) t)) →
  ∀ t t', P [] t → visitChildren' e children t = Returned t' → P children t'.
Proof.
  intros Hstep.
  assert (Hgen : ∀ rest done t t',
            children = done ++ rest → P done t →
            visitChildren' e rest t = Returned t' → P children t').
  { induction rest as [|k rest IH]; intros done t t' Hsplit HP Hrun.
    - simpl in Hrun. rewrite app_nil_r in Hsplit. congruence.
    - simpl in Hrun. rewrite visitChild_unfold in Hrun.
      destruct (tileKeyEntries t !! _) eqn:Hlook; [discriminate|].
      eapply (IH (done ++ [k])); [by rewrite <- app_assoc| |exact Hrun].
      by eapply Hstep. }
  intros t t'. by apply (Hgen children []).
Qed.

Lemma visitChildren_returns (P : list TileKey → Traversal → Prop)
    (e : TileKeyEntry) (children : list TileKey) :
  (∀ done k rest t,
     children = done ++ k :: rest → P done t →
     tileKeyEntries t !! getKeyForTileKeyAndOffset k (offset e) = None
     ∧ P (done ++ [k]) (applyCandidate' (childCandidate' e k) t)) →
  ∀ t, P [] t → ∃ t', visitChildren' e children t = Returned t'.
Proof.
  intros Hstep.
  assert (Hgen : ∀ rest done t,
            children = done ++ rest → P done t →
            ∃ t', visitChildren' e rest t = Returned t').
  { induction rest as [|k rest IH]; intros done t Hsplit HP.
    - by eexists.
    - simpl. rewrite visitChild_unfold.
      destruct (Hstep done k rest t Hsplit HP) as [-> HP'].
      apply (IH (done ++ [k])); [by rewrite <- app_assoc|exact HP']. }
  intros t. by apply (Hgen children []).
Qed.

Lemma visitChildren_total (P : list TileKey → Traversal → Prop)
    (e : TileKeyEntry) (children : list TileKey) :
  (∀ done k rest t,
     children = done ++ k :: rest → P done t →
     tileKeyEntries t !! getKeyForTileKeyAndOffset k (offset e) = None
     ∧ P (done ++ [k]) (applyCandidate' (childCandidate' e k) t)) →
  ∀ t, P [] t →
       ∃ t', visitChildren' e children t = Returned t' ∧ P children t'.
Proof.
  intros Hstep t HP.
  destruct (visitChildren_returns P e children Hstep t HP) as [t' Hrun].
  exists t'. split; [exact Hrun|].
  apply (visitChildren_inv P e children) in Hrun; [done| |done].
  intros done k rest t1 Hsplit HP1 _. by apply (Hstep done k rest).
Qed.

Lemma visitChildren_fuel (e : TileKeyEntry) (children : list TileKey)
    (t : Traversal) :
  visitChildren' e children t ≠ OutOfFuel.
Proof.
  revert t. induction children as [|k rest IH]; intros t; [done|].
  simpl. rewrite visitChild_unfold.
  destruct (tileKeyEntries t !! _); [done|apply IH].
Qed.

Lemma visitEntry_fuel (e : TileKeyEntry) (t : Traversal) :
  visitEntry' e t ≠ OutOfFuel.
Proof.
  unfold visitEntry. repeat case_match; try done. apply visitChildren_fuel.
Qed.

(** [visitEntry] on an entry that is not subdivided leaves the variables
    alone; on one that is, it checks the cached entry and goes through the
    children. *)
Lemma visitEntry_unfold (e : TileKeyEntry) (t : Traversal) :
  visitEntry' e t
  = if subdivided' e
    then match tileKeyEntries t !! entryKey e with
         | None => AssertionFailed assert_cachedTileEntry_defined
         | Some cached =>
             if Number_gt0 (area cached)
             then visitChildren' e (getSubTileKeys tilingScheme (tileKey e)) t
             else AssertionFailed assert_cachedTileEntry_area
         end
    else Returned t.
Proof.
  unfold visitEntry, subdivided, entryKey.
  destruct (maxTileLevel <? _)%Z; simpl; [reflexivity|].
  destruct (someShouldSubdivide _ _ _ _); simpl; [|reflexivity].
  destruct (tileKeyEntries t !! _); [|reflexivity].
  by destruct (Number_gt0 _).
Qed.

Lemma traverse_inv (P : Traversal → Prop) :
  (∀ M f e rest V t',
     P (mkTraversal M f (e :: rest) V) →
     visitEntry' e (mkTraversal M f rest V) = Returned t' → P t') →
  ∀ fuel t t', P t → traverse' fuel t = Returned t' →
               P t' ∧ workList t' = [].
Proof.
  intros Hstep. induction fuel as [|fuel IH]; intros [M f W V] t' HP Hrun.
  - simpl in Hrun. destruct W; [|discriminate].
    injection Hrun as <-. done.
  - simpl in Hrun. destruct W as [|e rest].
    + injection Hrun as <-. done.
    + destruct (visitEntry' e _) as [t1| |] eqn:Hvisit; try discriminate.
      apply (IH t1 t'); [|exact Hrun]. by eapply Hstep.
Qed.

Lemma traverse_no_assert (P : Traversal → Prop) :
  (∀ M f e rest V,
     P (mkTraversal M f (e :: rest) V) →
     ∃ t', visitEntry' e (mkTraversal M f rest V) = Returned t' ∧ P t') →
  ∀ fuel t site, P t → traverse' fuel t ≠ AssertionFailed site.
Proof.
  intros Hstep. induction fuel as [|fuel IH]; intros [M f W V] site HP.
  - simpl. by destruct W.
  - simpl. destruct W as [|e rest]; [done|].
    destruct (Hstep _ _ _ _ _ HP) as (t1 & -> & HP1). by apply IH.
Qed.

Lemma traverse_enough_fuel (P : Traversal → Prop) (μ : Traversal → nat) :
  (∀ M f e rest V,
     P (mkTraversal M f (e :: rest) V) →
     ∃ t', visitEntry' e (mkTraversal M f rest V) = Returned t' ∧ P t'
           ∧ (μ t' < μ (mkTraversal M f (e :: rest) V))%nat) →
  ∀ fuel t, P t → (μ t ≤ fuel)%nat → ∃ t', traverse' fuel t = Returned t'.
Proof.
  intros Hstep. induction fuel as [|fuel IH]; intros [M f W V] HP Hfuel.
  - simpl. destruct W as [|e rest]; [by eexists|].
    destruct (Hstep _ _ _ _ _ HP) as (t1 & _ & _ & Hlt). lia.
  - simpl. destruct W as [|e rest]; [by eexists|].
    destruct (Hstep _ _ _ _ _ HP) as (t1 & -> & HP1 & Hlt).
    apply IH; [exact HP1|lia].
Qed.

End Loops.

(** ** The invariant of [compute] *)

Section InvariantProofs.
Context `{HarpUtils}.
Variables (this : FrustumIntersection) (tilingScheme : TilingScheme)
  (maxTileLevel : Z) (elevationRangeSource : option ElevationRangeSource)
  (zoomLevels : list Z) (dataSources : list DataSource).

Abbreviation Inv' :=
  (Inv this tilingScheme maxTileLevel elevationRangeSource zoomLevels
     dataSources).
Abbreviation cand' := (childCandidate this tilingScheme elevationRangeSource).
Abbreviation apply' := (applyCandidate tilingScheme).
Abbreviation wasPushed' := (wasPushed this tilingScheme).
Abbreviation finished' :=
  (finished this tilingScheme maxTileLevel elevationRangeSource zoomLevels
     dataSources).
Abbreviation childrenVisited' :=
  (childrenVisited this tilingScheme elevationRangeSource).

Lemma candidate_key (c : Candidate) :
  c = cand' (cand_parent c) (cand_tileKey c) →
  cand_key c = entryKey (candidateEntry tilingScheme c)
  ∧ cand_pushed c = Qltb 0 (cand_area c).
Proof. intros ->. split; reflexivity. Qed.

Lemma wasPushed_mono (t t' : Traversal) (e : TileKeyEntry) :
  visited t ⊆ visited t' → wasPushed' t e → wasPushed' t' e.
Proof.
  intros Hsub [Hroot|(c & Hc & Hp & He)]; [by left|].
  right. exists c. split; [by apply Hsub|done].
Qed.

Lemma childrenVisited_mono (t t' : Traversal) (e : TileKeyEntry)
    (children : list TileKey) :
  visited t ⊆ visited t' →
  childrenVisited' t e children → childrenVisited' t' e children.
Proof. intros Hsub Hall k Hk. apply Hsub. by apply Hall. Qed.

Lemma finished_mono (t t' : Traversal) (e : TileKeyEntry) :
  visited t ⊆ visited t' → finished' t e → finished' t' e.
Proof.
  intros Hsub [Hno|Hall]; [by left|right].
  by eapply childrenVisited_mono.
Qed.

Lemma setRootEntries_lookup (roots : list TileKeyEntry)
    (M : gmap Z TileKeyEntry) (κ : Z) (e : TileKeyEntry) :
  setRootEntries roots M !! κ = Some e →
  M !! κ = Some e
  ∨ ∃ item, item ∈ roots ∧ κ = entryKey item ∧ e = unboundedEntry item.
Proof.
  revert M. induction roots as [|r roots IH]; intros M; simpl; [by left|].
  intros Hlook. apply IH in Hlook as [Hlook|(item & Hin & -> & ->)].
  - destruct (decide (entryKey r = κ)) as [<-|Hne].
    + unfold entryKey in Hlook. rewrite lookup_insert_eq in Hlook.
      injection Hlook as <-. right. exists r. split; [left|done].
    + unfold entryKey in Hne. rewrite lookup_insert_ne in Hlook by done.
      by left.
  - right. exists item. split; [by right|done].
Qed.

Lemma setRootEntries_is_Some (roots : list TileKeyEntry)
    (M : gmap Z TileKeyEntry) (κ : Z) :
  is_Some (M !! κ) ∨ (∃ item, item ∈ roots ∧ κ = entryKey item) →
  is_Some (setRootEntries roots M !! κ).
Proof.
  revert M. induction roots as [|r roots IH]; intros M; simpl.
  - intros [HM|(item & Hin & _)]; [done|]. by apply not_elem_of_nil in Hin.
  - intros Hcase. apply IH.
    destruct (decide (entryKey r = κ)) as [<-|Hne].
    + left. unfold entryKey. rewrite lookup_insert_eq. by eexists.
    + destruct Hcase as [HM|(item & Hin & ->)].
      * left. unfold entryKey in Hne. by rewrite lookup_insert_ne.
      * apply elem_of_cons in Hin as [->|Hin]; [done|].
        right. by exists item.
Qed.

Lemma Inv_initial : Inv' None [] (initialTraversal this).
Proof.
  split; simpl.
  - reflexivity.
  - intros c Hc. by apply not_elem_of_nil in Hc.
  - intros κ e Hlook.
    apply setRootEntries_lookup in Hlook as [Hlook|Hroot]; [|by left].
    by rewrite lookup_empty in Hlook.
  - intros item Hin.
    destruct (setRootEntries_is_Some (m_rootTileKeys this) ∅ (entryKey item))
      as [e He]; [right; by exists item|].
    pose proof He as Hlook.
    apply setRootEntries_lookup in Hlook as [Hlook|(item' & Hin' & Hk & ->)].
    + by rewrite lookup_empty in Hlook.
    + by exists item'.
  - intros c Hc. by apply not_elem_of_nil in Hc.
  - apply NoDup_nil_2.
  - intros e He. left. by apply elem_of_rev.
  - intros e [Hroot|(c & Hc & _)].
    + left. by apply elem_of_rev.
    + by apply not_elem_of_nil in Hc.
Qed.


Lemma childrenVisited_snoc (t : Traversal) (e : TileKeyEntry)
    (done : list TileKey) (k : TileKey) :
  childrenVisited' t e done →
  childrenVisited' (apply' (cand' e k) t) e (done ++ [k]).
Proof.
  intros Hall k' Hk'. simpl. apply elem_of_app in Hk' as [Hk'|Hk'].
  - right. by apply Hall.
  - apply list_elem_of_singleton in Hk' as ->. left.
Qed.

Lemma Inv_child (e0 : TileKeyEntry) (done : list TileKey) (k : TileKey)
    (t : Traversal) :
  Inv' (Some e0) done t →
  k ∈ getSubTileKeys tilingScheme (tileKey e0) →
  subdivided maxTileLevel zoomLevels dataSources e0 = true →
  wasPushed' t e0 →
  tileKeyEntries t !! getKeyForTileKeyAndOffset k (offset e0) = None →
  Inv' (Some e0) (done ++ [k]) (apply' (cand' e0 k) t).
Proof.
  intros [Hf Hc He Hr Hs Hn Hw Hd] Hk Hsub Hpush Hnone.
  set (c0 := cand' e0 k).
  assert (Hkey : cand_key c0 = getKeyForTileKeyAndOffset k (offset e0))
    by reflexivity.
  assert (Hpar : cand_parent c0 = e0) by reflexivity.
  assert (Htk : cand_tileKey c0 = k) by reflexivity.
  assert (Hdet : c0 = cand' e0 k) by reflexivity.
  clearbody c0.
  assert (Hvis : visited t ⊆ visited (apply' c0 t)).
  { intros x Hx. simpl. by right. }
  assert (Hfresh : ∀ c, c ∈ visited t → cand_pushed c = true →
                        cand_key c ≠ cand_key c0).
  { intros c Hin Hp Heq. pose proof (Hs c Hin Hp) as Hlook.
    rewrite Heq, Hkey in Hlook. congruence. }
  split.
  - simpl. rewrite Hf. apply andb_comm.
  - intros c Hin. simpl in Hin. apply elem_of_cons in Hin as [->|Hin].
    + rewrite Hpar, Htk. split; [exact Hdet|]. split; [exact Hk|].
      split; [exact Hsub|]. by eapply wasPushed_mono.
    + destruct (Hc c Hin) as (Hdet' & Hchild & Hdiv & Hwas).
      repeat split; try done. by eapply wasPushed_mono.
  - intros κ e Hlook.
    assert (Hold : tileKeyEntries t !! κ = Some e →
              (∃ item, item ∈ m_rootTileKeys this ∧ κ = entryKey item
                       ∧ e = unboundedEntry item)
              ∨ (∃ c, c ∈ visited (apply' c0 t) ∧ cand_pushed c = true
                      ∧ κ = cand_key c ∧ e = candidateEntry tilingScheme c)).
    { intros Hlook'. destruct (He κ e Hlook') as [Hroot|(c & Hin & Hrest)];
        [by left|right]. exists c. split; [by apply Hvis|done]. }
    simpl in Hlook. destruct (cand_pushed c0) eqn:Hp; [|by apply Hold].
    destruct (decide (cand_key c0 = κ)) as [<-|Hne].
    + rewrite lookup_insert_eq in Hlook. injection Hlook as <-.
      right. exists c0. split; [left|done].
    + rewrite lookup_insert_ne in Hlook by done. by apply Hold.
  - intros item Hin. destruct (Hr item Hin) as (item' & Hin' & Hk' & Hlook).
    exists item'. split; [done|]. split; [done|]. simpl.
    destruct (cand_pushed c0); [|done].
    rewrite lookup_insert_ne; [done|]. intros Heq.
    rewrite Hkey in Heq. rewrite <- Heq in Hlook. congruence.
  - intros c Hin Hp. simpl in Hin. apply elem_of_cons in Hin as [->|Hin].
    + simpl. rewrite Hp. apply lookup_insert_eq.
    + simpl. destruct (cand_pushed c0); [|by apply Hs].
      rewrite lookup_insert_ne; [by apply Hs|].
      intros Heq. by apply (Hfresh c Hin Hp).
  - simpl. rewrite filter_cons.
    destruct (decide (cand_pushed c0 = true)) as [Hp|Hp]; [|done].
    rewrite fmap_cons. apply NoDup_cons_2; [|done].
    intros Hin. apply list_elem_of_fmap in Hin as (c & Heq & Hc').
    apply list_elem_of_filter in Hc' as [Hp' Hin].
    by apply (Hfresh c Hin Hp').
  - intros e Hin. simpl in Hin.
    destruct (cand_pushed c0) eqn:Hp;
      [apply elem_of_cons in Hin as [->|Hin]|].
    + right. exists c0. split; [left|done].
    + eapply wasPushed_mono; [done|]. by apply Hw.
    + eapply wasPushed_mono; [done|]. by apply Hw.
  - assert (Hold : ∀ e, wasPushed' t e →
              e ∈ workList (apply' c0 t) ∨ finished' (apply' c0 t) e
              ∨ (Some e0 = Some e
                 ∧ childrenVisited' (apply' c0 t) e (done ++ [k]))).
    { intros e Hwas. destruct (Hd e Hwas) as [HW|[Hfin|[Hcur Hcv]]].
      - left. simpl. destruct (cand_pushed c0); [right|]; done.
      - right; left. by eapply finished_mono.
      - right; right. split; [done|]. injection Hcur as <-.
        rewrite Hdet. by apply childrenVisited_snoc. }
    intros e [Hroot|(c & Hin & Hp & ->)]; [apply Hold; by left|].
    simpl in Hin. apply elem_of_cons in Hin as [->|Hin].
    + left. simpl. rewrite Hp. left.
    + apply Hold. right. by exists c.
Qed.


Lemma Inv_enter (M : gmap Z TileKeyEntry) (f : bool) (e : TileKeyEntry)
    (rest : list TileKeyEntry) (V : list Candidate) :
  Inv' None [] (mkTraversal M f (e :: rest) V) →
  Inv' (Some e) [] (mkTraversal M f rest V).
Proof.
  intros [Hf Hc He Hr Hs Hn Hw Hd]. split; try done.
  - intros e' Hin. apply (Hw e'). by right.
  - intros e' Hwas. destruct (Hd e' Hwas) as [HW|[Hfin|[Hcur _]]].
    + simpl in HW. apply elem_of_cons in HW as [->|HW]; [|by left].
      right; right. split; [done|]. intros k Hk.
      by apply not_elem_of_nil in Hk.
    + right; by left.
    + discriminate.
Qed.

Lemma Inv_skip (M : gmap Z TileKeyEntry) (f : bool) (e : TileKeyEntry)
    (rest : list TileKeyEntry) (V : list Candidate) :
  Inv' None [] (mkTraversal M f (e :: rest) V) →
  subdivided maxTileLevel zoomLevels dataSources e = false →
  Inv' None [] (mkTraversal M f rest V).
Proof.
  intros [Hf Hc He Hr Hs Hn Hw Hd] Hno. split; try done.
  - intros e' Hin. apply (Hw e'). by right.
  - intros e' Hwas. destruct (Hd e' Hwas) as [HW|[Hfin|[Hcur _]]].
    + simpl in HW. apply elem_of_cons in HW as [->|HW]; [|by left].
      right; left. by left.
    + right; by left.
    + discriminate.
Qed.

Lemma Inv_leave (e : TileKeyEntry) (t : Traversal) :
  Inv' (Some e) (getSubTileKeys tilingScheme (tileKey e)) t → Inv' None [] t.
Proof.
  intros [Hf Hc He Hr Hs Hn Hw Hd]. split; try done.
  intros e' Hwas. destruct (Hd e' Hwas) as [HW|[Hfin|[Hcur Hall]]].
  - by left.
  - right; by left.
  - injection Hcur as <-. right; left. by right.
Qed.

(** The two assertions on the cached entry hold of every entry that was
    pushed. *)
Lemma Inv_cached (current : option TileKeyEntry) (done : list TileKey)
    (t : Traversal) (e : TileKeyEntry) :
  Inv' current done t → wasPushed' t e →
  ∃ cached, tileKeyEntries t !! entryKey e = Some cached
            ∧ Number_gt0 (area cached) = true.
Proof.
  intros [Hf Hc He Hr Hs Hn Hw Hd] [Hroot|(c & Hin & Hp & ->)].
  - destruct (Hr e Hroot) as (item' & _ & _ & Hlook). by eexists.
  - destruct (Hc c Hin) as (Hdet & _).
    apply candidate_key in Hdet as [Hkey Hpushed].
    exists (candidateEntry tilingScheme c). rewrite <- Hkey.
    split; [by apply Hs|]. simpl. congruence.
Qed.

Lemma Inv_visitChildren (e : TileKeyEntry) (t t' : Traversal) :
  Inv' (Some e) [] t → wasPushed' t e →
  subdivided maxTileLevel zoomLevels dataSources e = true →
  visitChildren this tilingScheme elevationRangeSource e
    (getSubTileKeys tilingScheme (tileKey e)) t = Returned t' →
  Inv' None [] t'.
Proof.
  intros HInv Hwas Hsub Hrun. apply (Inv_leave e).
  pose (P := λ done t, Inv' (Some e) done t ∧ wasPushed' t e).
  apply (visitChildren_inv this tilingScheme elevationRangeSource P e
           (getSubTileKeys tilingScheme (tileKey e))) in Hrun as [HInv' _];
    [done| |done].
  intros done k rest t1 Hsplit [HInv1 Hwas1] Hnone. split.
  - apply Inv_child; try done. rewrite Hsplit.
    apply elem_of_app. right. left.
  - eapply wasPushed_mono; [|done]. intros x Hx. simpl. by right.
Qed.

Lemma Inv_visitEntry (M : gmap Z TileKeyEntry) (f : bool) (e : TileKeyEntry)
    (rest : list TileKeyEntry) (V : list Candidate) (t' : Traversal) :
  Inv' None [] (mkTraversal M f (e :: rest) V) →
  visitEntry this tilingScheme maxTileLevel elevationRangeSource zoomLevels
    dataSources e (mkTraversal M f rest V) = Returned t' →
  Inv' None [] t'.
Proof.
  intros HInv Hrun. rewrite visitEntry_unfold in Hrun.
  destruct (subdivided _ _ _ e) eqn:Hsub.
  - destruct (tileKeyEntries _ !! _); [|discriminate].
    destruct (Number_gt0 _); [|discriminate].
    apply (Inv_visitChildren e (mkTraversal M f rest V));
      [by apply Inv_enter| |done|done].
    apply (inv_workList _ _ _ _ _ _ _ _ _ HInv). left.
  - injection Hrun as <-. by apply (Inv_skip M f e).
Qed.

(** The invariant holds of what [compute] returns. *)
Lemma Inv_traverse (fuel : nat) (t' : Traversal) :
  traverse this tilingScheme maxTileLevel elevationRangeSource zoomLevels
    dataSources fuel (initialTraversal this) = Returned t' →
  Inv' None [] t' ∧ workList t' = [].
Proof.
  apply traverse_inv; [|apply Inv_initial].
  intros M f e rest V t1. apply Inv_visitEntry.
Qed.

End InvariantProofs.

(** ** Offsets and the precision flag *)

Section SimpleInvariants.
Context `{HarpUtils}.
Variables (this : FrustumIntersection) (tilingScheme : TilingScheme)
  (maxTileLevel : Z) (elevationRangeSource : option ElevationRangeSource)
  (zoomLevels : list Z) (dataSources : list DataSource).

Abbreviation offsetsFromRoots' := (offsetsFromRoots this).

Lemma offsetsFromRoots_initial : offsetsFromRoots' (initialTraversal this).
Proof.
  split; [|split]; simpl.
  - intros κ e Hlook.
    apply setRootEntries_lookup in Hlook as [Hlook|(item & Hin & _ & ->)].
    + by rewrite lookup_empty in Hlook.
    + simpl. by apply list_elem_of_fmap_2.
  - intros e He. apply (proj1 (elem_of_rev _ _)) in He.
    by apply list_elem_of_fmap_2.
  - intros c Hc. by apply not_elem_of_nil in Hc.
Qed.

Lemma offsetsFromRoots_child (e : TileKeyEntry) (k : TileKey)
    (t : Traversal) :
  offsetsFromRoots' t → offset e ∈ offset <$> m_rootTileKeys this →
  offsetsFromRoots'
    (applyCandidate tilingScheme
       (childCandidate this tilingScheme elevationRangeSource e k) t).
Proof.
  intros (HM1 & HW1 & HV1) He. split; [|split]; simpl.
  - intros κ e' Hlook. destruct (Qltb 0 _); [|by eapply HM1].
    destruct (decide
      (getKeyForTileKeyAndOffset k (offset e) = κ)) as [<-|Hne].
    + rewrite lookup_insert_eq in Hlook. by injection Hlook as <-.
    + rewrite lookup_insert_ne in Hlook by done. by eapply HM1.
  - intros e' He'. destruct (Qltb 0 _); [|by apply HW1].
    apply elem_of_cons in He' as [->|He']; [done|by apply HW1].
  - intros c Hc. apply elem_of_cons in Hc as [->|Hc]; [done|by apply HV1].
Qed.

Lemma offsetsFromRoots_pop (M : gmap Z TileKeyEntry) (f : bool)
    (e : TileKeyEntry) (rest : list TileKeyEntry) (V : list Candidate) :
  offsetsFromRoots' (mkTraversal M f (e :: rest) V) →
  offsetsFromRoots' (mkTraversal M f rest V)
  ∧ offset e ∈ offset <$> m_rootTileKeys this.
Proof.
  intros (HM & HW & HV). simpl in *. split; [|apply HW; left].
  split; [|split]; simpl; try done. intros e' He'. apply HW. by right.
Qed.

Lemma offsetsFromRoots_visitEntry (M : gmap Z TileKeyEntry) (f : bool)
    (e : TileKeyEntry) (rest : list TileKeyEntry) (V : list Candidate)
    (t' : Traversal) :
  offsetsFromRoots' (mkTraversal M f (e :: rest) V) →
  visitEntry this tilingScheme maxTileLevel elevationRangeSource zoomLevels
    dataSources e (mkTraversal M f rest V) = Returned t' →
  offsetsFromRoots' t'.
Proof.
  intros Hoff Hrun. apply offsetsFromRoots_pop in Hoff as [Hpop He].
  rewrite visitEntry_unfold in Hrun.
  destruct (subdivided _ _ _ e); [|by injection Hrun as <-].
  destruct (tileKeyEntries _ !! _); [|discriminate].
  destruct (Number_gt0 _); [|discriminate].
  apply (visitChildren_inv this tilingScheme elevationRangeSource
           (λ _, offsetsFromRoots') e _) in Hrun; [done| |done].
  intros done k rest' t1 _ Hoff1 _. by apply offsetsFromRoots_child.
Qed.

Lemma offsetsFromRoots_traverse (fuel : nat) (t' : Traversal) :
  traverse this tilingScheme maxTileLevel elevationRangeSource zoomLevels
    dataSources fuel (initialTraversal this) = Returned t' →
  offsetsFromRoots' t'.
Proof.
  intros Hrun.
  apply (traverse_inv this tilingScheme maxTileLevel elevationRangeSource
           zoomLevels dataSources offsetsFromRoots') in Hrun as [Hoff _];
    [done| |apply offsetsFromRoots_initial].
  intros M f e rest V t1. apply offsetsFromRoots_visitEntry.
Qed.

(** Once false, the flag stays false. *)
Lemma calculationFinal_visitEntry (e : TileKeyEntry) (t t' : Traversal) :
  visitEntry this tilingScheme maxTileLevel elevationRangeSource zoomLevels
    dataSources e t = Returned t' →
  calculationFinal t = false → calculationFinal t' = false.
Proof.
  intros Hrun Hfalse. rewrite visitEntry_unfold in Hrun.
  destruct (subdivided _ _ _ e); [|by injection Hrun as <-].
  destruct (tileKeyEntries _ !! _); [|discriminate].
  destruct (Number_gt0 _); [|discriminate].
  apply (visitChildren_inv this tilingScheme elevationRangeSource
           (λ _ t, calculationFinal t = false) e _) in Hrun; [done| |done].
  intros done k rest t1 _ Hf _. simpl. by rewrite Hf.
Qed.

Lemma calculationFinal_traverse (fuel : nat) (t t' : Traversal) :
  traverse this tilingScheme maxTileLevel elevationRangeSource zoomLevels
    dataSources fuel t = Returned t' →
  calculationFinal t = false → calculationFinal t' = false.
Proof.
  intros Hrun Hfalse.
  apply (traverse_inv this tilingScheme maxTileLevel elevationRangeSource
           zoomLevels dataSources (λ t, calculationFinal t = false))
    in Hrun as [Hf _]; [done| |done].
  intros M f e rest V t1 Hf Hvisit.
  by apply (calculationFinal_visitEntry e _ _ Hvisit).
Qed.

Lemma compute_Returned (fuel : nat) (r : Result) :
  compute this tilingScheme maxTileLevel elevationRangeSource zoomLevels
    dataSources fuel = Returned r →
  ∃ t, traverse this tilingScheme maxTileLevel elevationRangeSource
         zoomLevels dataSources fuel (initialTraversal this) = Returned t
       ∧ r = mkResult (tileKeyEntries t) (calculationFinal t) (visited t).
Proof.
  unfold compute. destruct (traverse _ _ _ _ _ _ _ _) as [t| |];
    try discriminate.
  intros [= <-]. by exists t.
Qed.

Lemma forallb_queryFinal (V : list Candidate) :
  forallb queryFinal V = true
  ↔ ∀ c range, c ∈ V → cand_range c = Some range →
               calculationStatus range = FinalPrecise.
Proof.
  rewrite forallb_forall. split.
  - intros Hall c range Hin Hrange. apply list_elem_of_In in Hin.
    specialize (Hall c Hin). unfold queryFinal in Hall.
    rewrite Hrange in Hall. by apply bool_decide_eq_true in Hall.
  - intros Hall c Hin. apply list_elem_of_In in Hin. unfold queryFinal.
    destruct (cand_range c) as [range|] eqn:Hrange; [|done].
    apply bool_decide_eq_true. by eapply Hall.
Qed.



End SimpleInvariants.

(** ** Spherical projections *)

Section Spherical.
Context `{HarpUtils}.

(** C10. Offsets other than 0 arise only under a planar projection: for a
    spherical projection the selector writes the single root entry of
    offset 0, whatever the tile wrapping flag, and every entry of a result
    computed from these roots has offset 0. *)
Theorem spherical_offsets_zero (this : FrustumIntersection)
    (worldCenter : THREE.Vector3) :
  type (projection (mapView this)) = Spherical →
  let this' := computeRequiredInitialRootTileKeys this worldCenter in
  m_rootTileKeys this' = [rootEntry 0]
  ∧ ∀ tilingScheme maxTileLevel elevationRangeSource zoomLevels dataSources
      fuel r,
      compute this' tilingScheme maxTileLevel elevationRangeSource zoomLevels
        dataSources fuel = Returned r →
      ∀ κ e, res_tileKeyEntries r !! κ = Some e → offset e = 0%Z.
Proof.
  intros Hty this'.
  assert (Hroots : m_rootTileKeys this' = [rootEntry 0]).
  { apply rootTileKeys_noWrap. left. by rewrite Hty. }
  split; [exact Hroots|].
  intros ts maxL src zl ds fuel r Hrun κ e Hlook.
  apply compute_Returned in Hrun as (t & Hrun & ->). simpl in Hlook.
  apply offsetsFromRoots_traverse in Hrun as (HM & _).
  specialize (HM κ e Hlook). rewrite Hroots in HM.
  by apply list_elem_of_singleton in HM.
Qed.

End Spherical.

(** ** An elevation source of another tiling scheme *)

Section ForeignElevation.
Context `{HarpUtils}.
Variables (this : FrustumIntersection) (tilingScheme : TilingScheme)
  (maxTileLevel : Z) (zoomLevels : list Z) (dataSources : list DataSource).

Lemma visitChildren_query_ext (src1 src2 : option ElevationRangeSource)
    (e : TileKeyEntry) (children : list TileKey) (t : Traversal) :
  (∀ k, queryElevation tilingScheme src1 k = queryElevation tilingScheme src2 k) →
  visitChildren this tilingScheme src1 e children t
  = visitChildren this tilingScheme src2 e children t.
Proof.
  intros Hq. revert t. induction children as [|k rest IH]; intros t; [done|].
  simpl. unfold visitChild. rewrite Hq.
  destruct (tileKeyEntries t !! _); [done|].
  destruct (Qltb 0 _); apply IH.
Qed.

Lemma traverse_query_ext (src1 src2 : option ElevationRangeSource)
    (fuel : nat) (t : Traversal) :
  (∀ k, queryElevation tilingScheme src1 k = queryElevation tilingScheme src2 k) →
  traverse this tilingScheme maxTileLevel src1 zoomLevels dataSources fuel t
  = traverse this tilingScheme maxTileLevel src2 zoomLevels dataSources fuel t.
Proof.
  intros Hq. revert t. induction fuel as [|fuel IH]; intros t; [done|].
  simpl. destruct (workList t) as [|e rest]; [done|].
  unfold visitEntry.
  rewrite (visitChildren_query_ext src1 src2) by done.
  destruct (maxTileLevel <? _)%Z; [apply IH|].
  destruct (negb _); [apply IH|].
  destruct (_ !! _); [|done]. destruct (negb _); [done|].
  destruct (visitChildren _ _ _ _ _ _); [apply IH|done|done].
Qed.

Lemma queryElevation_foreign (src : ElevationRangeSource) (k : TileKey) :
  ts_ref (getTilingScheme src) ≠ ts_ref tilingScheme →
  queryElevation tilingScheme (Some src) k = queryElevation tilingScheme None k.
Proof.
  intros Hne. unfold queryElevation. simpl.
  by rewrite bool_decide_eq_false_2.
Qed.

(** C8. With an elevation source whose tiling scheme is not the traversed
    one, [compute] does what it does without elevation source: the outcome
    is the same, no child is recorded with an elevation query, the flag is
    true, and every stored child has the altitudes of the tiling scheme's own
    box as elevations (0 where the box leaves them undefined); these are 0
    throughout, roots included, for roots written by the selector and a
    tiling scheme of zero altitude boxes. *)
Theorem foreign_elevation_source_ignored (src : ElevationRangeSource)
    (fuel : nat) :
  ts_ref (getTilingScheme src) ≠ ts_ref tilingScheme →
  compute this tilingScheme maxTileLevel (Some src) zoomLevels dataSources fuel
  = compute this tilingScheme maxTileLevel None zoomLevels dataSources fuel
  ∧ ∀ r,
      compute this tilingScheme maxTileLevel (Some src) zoomLevels dataSources
        fuel = Returned r →
      res_calculationFinal r = true
      ∧ (∀ c, c ∈ res_visited r → cand_range c = None)
      ∧ (∀ κ e, res_tileKeyEntries r !! κ = Some e →
           (∃ item, item ∈ m_rootTileKeys this ∧ e = unboundedEntry item)
           ∨ (minElevation e
              = default0 (altitude (southWest
                  (TilingScheme_getGeoBox tilingScheme (tileKey e))))
              ∧ maxElevation e
                = default0 (altitude (northEast
                    (TilingScheme_getGeoBox tilingScheme (tileKey e))))))
      ∧ ((∃ offsets, RootsSelected this offsets) →
         (∀ k, default0 (altitude (southWest
                 (TilingScheme_getGeoBox tilingScheme k))) = 0%Q
               ∧ default0 (altitude (northEast
                   (TilingScheme_getGeoBox tilingScheme k))) = 0%Q) →
         ∀ κ e, res_tileKeyEntries r !! κ = Some e →
                minElevation e = 0%Q ∧ maxElevation e = 0%Q).
Proof.
  intros Hne.
  assert (Heq : compute this tilingScheme maxTileLevel (Some src) zoomLevels
                  dataSources fuel
                = compute this tilingScheme maxTileLevel None zoomLevels
                    dataSources fuel).
  { unfold compute. rewrite (traverse_query_ext (Some src) None); [done|].
    intros k. by apply queryElevation_foreign. }
  split; [exact Heq|]. intros r Hrun. rewrite Heq in Hrun.
  apply compute_Returned in Hrun as (t & Hrun & ->). simpl.
  apply Inv_traverse in Hrun as [HInv _].
  assert (Hnone : ∀ c, c ∈ visited t → cand_range c = None).
  { intros c Hc.
    destruct (inv_candidate _ _ _ _ _ _ _ _ _ HInv c Hc) as (Hdet & _).
    by rewrite Hdet. }
  assert (Hentries : ∀ κ e, tileKeyEntries t !! κ = Some e →
            (∃ item, item ∈ m_rootTileKeys this ∧ e = unboundedEntry item)
            ∨ (minElevation e
               = default0 (altitude (southWest
                   (TilingScheme_getGeoBox tilingScheme (tileKey e))))
               ∧ maxElevation e
                 = default0 (altitude (northEast
                     (TilingScheme_getGeoBox tilingScheme (tileKey e)))))).
  { intros κ e Hlook.
    destruct (inv_entries _ _ _ _ _ _ _ _ _ HInv κ e Hlook)
      as [(item & Hin & _ & ->)|(c & Hc & _ & _ & ->)].
    - left. by exists item.
    - right. unfold candidateEntry. rewrite (Hnone c Hc). by simpl. }
  split; [|split; [exact Hnone|split; [exact Hentries|]]].
  - rewrite (inv_final _ _ _ _ _ _ _ _ _ HInv).
    apply forallb_queryFinal. intros c range Hc Hrange.
    rewrite (Hnone c Hc) in Hrange. discriminate.
  - intros (offsets & _ & Hroots) Hzero κ e Hlook.
    destruct (Hentries κ e Hlook) as [(item & Hin & ->)|[-> ->]].
    + rewrite Hroots in Hin. apply list_elem_of_fmap in Hin as (o & -> & _).
      by simpl.
    + apply Hzero.
Qed.

End ForeignElevation.

(** ** Traversal of a tree with injective keys *)

Section Tree.
Context `{HarpUtils}.
Variables (this : FrustumIntersection) (tilingScheme : TilingScheme)
  (maxTileLevel : Z) (elevationRangeSource : option ElevationRangeSource)
  (zoomLevels : list Z) (dataSources : list DataSource) (offsets : list Z).
Hypothesis Hroots : m_rootTileKeys this = rootEntry <$> offsets.
Hypothesis Hlevel :
  ∀ k c, c ∈ getSubTileKeys tilingScheme k → level c = S (level k).
Hypothesis Hinj : KeyInjective (S (Z.to_nat maxTileLevel)) offsets.

Abbreviation InvT :=
  (Inv this tilingScheme maxTileLevel elevationRangeSource zoomLevels
     dataSources).
Abbreviation candT := (childCandidate this tilingScheme elevationRangeSource).
Abbreviation subdividedT := (subdivided maxTileLevel zoomLevels dataSources).

Lemma subdivided_level (e : TileKeyEntry) :
  subdividedT e = true → (level (tileKey e) ≤ Z.to_nat maxTileLevel)%nat.
Proof.
  unfold subdivided. intros Hsub. apply andb_true_iff in Hsub as [Hlev _].
  apply negb_true_iff, Z.ltb_ge in Hlev. lia.
Qed.

Lemma root_offsets : offset <$> m_rootTileKeys this = offsets.
Proof using Hroots.
  rewrite Hroots, <- list_fmap_compose. apply list_fmap_id.
Qed.

Lemma root_item (item : TileKeyEntry) :
  item ∈ m_rootTileKeys this → ∃ o, o ∈ offsets ∧ item = rootEntry o.
Proof using Hroots.
  rewrite Hroots. intros Hin.
  apply list_elem_of_fmap in Hin as (o & -> & Ho). by exists o.
Qed.

Lemma childCandidate_offset (e1 e2 : TileKeyEntry) (k : TileKey) :
  offset e1 = offset e2 →
  cand_key (candT e1 k) = cand_key (candT e2 k)
  ∧ cand_area (candT e1 k) = cand_area (candT e2 k)
  ∧ cand_pushed (candT e1 k) = cand_pushed (candT e2 k).
Proof. unfold childCandidate. simpl. by intros ->. Qed.

(** What the invariant tells of a recorded child. *)
Lemma candidate_domain (current : option TileKeyEntry) (done : list TileKey)
    (t : Traversal) (c : Candidate) :
  InvT current done t → offsetsFromRoots this t → c ∈ visited t →
  c = candT (cand_parent c) (cand_tileKey c)
  ∧ level (cand_tileKey c) = S (level (tileKey (cand_parent c)))
  ∧ (level (cand_tileKey c) ≤ S (Z.to_nat maxTileLevel))%nat
  ∧ offset (cand_parent c) ∈ offsets.
Proof using Hroots Hlevel.
  intros HInv (_ & _ & HV) Hc.
  destruct (inv_candidate _ _ _ _ _ _ _ _ _ HInv c Hc)
    as (Hdet & Hchild & Hsub & _).
  split; [exact Hdet|]. pose proof (Hlevel _ _ Hchild) as Hlev.
  split; [exact Hlev|]. apply subdivided_level in Hsub.
  split; [lia|]. rewrite <- root_offsets. by apply HV.
Qed.

(** Two recorded children of one tile and offset have one key, and the
    converse under the hypotheses on keys. *)
Lemma candidate_key_inj (current : option TileKeyEntry) (done : list TileKey)
    (t : Traversal) (c : Candidate) (k : TileKey) (o : Z) :
  InvT current done t → offsetsFromRoots this t → c ∈ visited t →
  (level k ≤ S (Z.to_nat maxTileLevel))%nat → o ∈ offsets →
  cand_key c = getKeyForTileKeyAndOffset k o →
  cand_tileKey c = k ∧ offset (cand_parent c) = o.
Proof using Hroots Hlevel Hinj.
  intros HInv Hoff Hc Hk Ho Hkey.
  destruct (candidate_domain _ _ _ _ HInv Hoff Hc) as (Hdet & _ & Hlev & Hoc).
  apply candidate_key in Hdet as [Hkey' _]. rewrite Hkey' in Hkey.
  by apply Hinj.
Qed.

Lemma root_key_inj (item : TileKeyEntry) (k : TileKey) (o : Z) :
  item ∈ m_rootTileKeys this →
  (level k ≤ S (Z.to_nat maxTileLevel))%nat → o ∈ offsets →
  entryKey item = getKeyForTileKeyAndOffset k o →
  level k = 0%nat ∧ item = rootEntry o.
Proof using Hroots Hinj.
  intros Hin Hk Ho Hkey. apply root_item in Hin as (o' & Ho' & ->).
  apply Hinj in Hkey as [<- <-]; [done|simpl; lia|done..].
Qed.



(** *** No tile and offset is visited twice *)

Hypothesis Hnodup : NoDup offsets.
Hypothesis Hchildren : ∀ k, NoDup (getSubTileKeys tilingScheme k).
Hypothesis Hparent :
  ∀ k1 k2 c, c ∈ getSubTileKeys tilingScheme k1 →
             c ∈ getSubTileKeys tilingScheme k2 → k1 = k2.

Abbreviation applyT := (applyCandidate tilingScheme).
Abbreviation wasPushedT := (wasPushed this tilingScheme).

Lemma wasPushed_offset (t : Traversal) (e : TileKeyEntry) :
  offsetsFromRoots this t → wasPushedT t e → offset e ∈ offsets.
Proof using Hroots.
  intros (_ & _ & HV) [Hroot|(c & Hc & _ & ->)].
  - apply root_item in Hroot as (o & Ho & ->). exact Ho.
  - simpl. rewrite <- root_offsets. by apply HV.
Qed.

(** A tile below level 0 whose key is free was never pushed. *)
Lemma pair_not_pushed (current : option TileKeyEntry) (done : list TileKey)
    (t : Traversal) (k : TileKey) (o : Z) (e : TileKeyEntry) :
  InvT current done t →
  tileKeyEntries t !! getKeyForTileKeyAndOffset k o = None →
  level k ≠ 0%nat → wasPushedT t e → entryPair e ≠ (k, o).
Proof using Hroots.
  intros HInv Hnone Hlev [Hroot|(c & Hc & Hp & ->)] Hpair.
  - apply root_item in Hroot as (o' & _ & ->).
    injection Hpair as <- _. by apply Hlev.
  - injection Hpair as Htk Ho.
    destruct (inv_candidate _ _ _ _ _ _ _ _ _ HInv c Hc) as (Hdet & _).
    apply candidate_key in Hdet as [Hkey _].
    pose proof (inv_stored _ _ _ _ _ _ _ _ _ HInv c Hc Hp) as Hlook.
    rewrite Hkey in Hlook. unfold entryKey in Hlook. simpl in Hlook.
    rewrite Htk, Ho in Hlook. congruence.
Qed.

(** A recorded child of the tile and offset of the current entry is one of
    the children gone through. *)
Lemma candidate_of_current (e0 : TileKeyEntry) (done : list TileKey)
    (t : Traversal) (c : Candidate) (k : TileKey) :
  InvT (Some e0) done t → Uniq (Some e0) done t → c ∈ visited t →
  k ∈ getSubTileKeys tilingScheme (tileKey e0) →
  candidatePair c = (k, offset e0) → k ∈ done.
Proof using Hparent.
  intros HInv HUniq Hc Hk Hpair. injection Hpair as Htk Ho.
  destruct (inv_candidate _ _ _ _ _ _ _ _ _ HInv c Hc) as (_ & Hchild & _).
  rewrite Htk in Hchild.
  pose proof (Hparent _ _ _ Hchild Hk) as Hsame.
  assert (Hpair : entryPair (cand_parent c) = entryPair e0).
  { unfold entryPair. by rewrite Hsame, Ho. }
  destruct (uniq_parent _ _ _ HUniq c Hc)
    as [[_ Hne]|(e & [= <-] & _ & Hdone)].
  - exfalso. by apply (Hne e0).
  - by rewrite <- Htk.
Qed.

Lemma fresh_key (e0 : TileKeyEntry) (done rest : list TileKey) (k : TileKey)
    (t : Traversal) :
  InvT (Some e0) done t → Uniq (Some e0) done t → offsetsFromRoots this t →
  wasPushedT t e0 → subdividedT e0 = true →
  getSubTileKeys tilingScheme (tileKey e0) = done ++ k :: rest →
  tileKeyEntries t !! getKeyForTileKeyAndOffset k (offset e0) = None.
Proof using Hroots Hlevel Hinj Hchildren Hparent.
  intros HInv HUniq Hoff Hwas Hsub Hsplit.
  assert (Hk : k ∈ getSubTileKeys tilingScheme (tileKey e0)).
  { rewrite Hsplit. apply elem_of_app. right. left. }
  assert (Hlev : (level k ≤ S (Z.to_nat maxTileLevel))%nat).
  { rewrite (Hlevel _ _ Hk). apply subdivided_level in Hsub. lia. }
  assert (Ho : offset e0 ∈ offsets) by by apply (wasPushed_offset t).
  destruct (tileKeyEntries t !! _) as [e|] eqn:Hlook; [exfalso|done].
  destruct (inv_entries _ _ _ _ _ _ _ _ _ HInv _ _ Hlook)
    as [(item & Hin & Hkey & _)|(c & Hc & Hp & Hkey & _)].
  - symmetry in Hkey. apply root_key_inj in Hkey as [Hzero _]; try done.
    rewrite (Hlevel _ _ Hk) in Hzero. lia.
  - symmetry in Hkey.
    apply (candidate_key_inj _ _ _ _ _ _ HInv Hoff Hc) in Hkey
      as [Htk Hoc]; try done.
    assert (Hdone : k ∈ done).
    { apply (candidate_of_current e0 done t c); try done.
      unfold candidatePair. by rewrite Htk, Hoc. }
    pose proof (Hchildren (tileKey e0)) as Hnd. rewrite Hsplit in Hnd.
    apply list.NoDup_app in Hnd as (_ & Hdisj & _).
    apply (Hdisj k Hdone). left.
Qed.

Lemma Uniq_child (e0 : TileKeyEntry) (done rest : list TileKey) (k : TileKey)
    (t : Traversal) :
  InvT (Some e0) done t → Uniq (Some e0) done t → offsetsFromRoots this t →
  wasPushedT t e0 → subdividedT e0 = true →
  getSubTileKeys tilingScheme (tileKey e0) = done ++ k :: rest →
  tileKeyEntries t !! getKeyForTileKeyAndOffset k (offset e0) = None →
  Uniq (Some e0) (done ++ [k]) (applyT (candT e0 k) t).
Proof using Hroots Hlevel Hchildren Hparent.
  intros HInv HUniq Hoff Hwas Hsub Hsplit Hnone.
  assert (Hk : k ∈ getSubTileKeys tilingScheme (tileKey e0)).
  { rewrite Hsplit. apply elem_of_app. right. left. }
  assert (Hlev : level k ≠ 0%nat) by (rewrite (Hlevel _ _ Hk); lia).
  assert (Hnotdone : k ∉ done).
  { pose proof (Hchildren (tileKey e0)) as Hnd. rewrite Hsplit in Hnd.
    apply list.NoDup_app in Hnd as (_ & Hdisj & _).
    intros Hdone. apply (Hdisj k Hdone). left. }
  assert (HnotW : (k, offset e0) ∉ entryPair <$> workList t).
  { intros Hin. apply list_elem_of_fmap in Hin as (e & Hpair & He).
    symmetry in Hpair. revert Hpair.
    apply (pair_not_pushed (Some e0) done t); try done.
    by apply (inv_workList _ _ _ _ _ _ _ _ _ HInv). }
  set (c0 := candT e0 k).
  assert (Hpar : cand_parent c0 = e0) by reflexivity.
  assert (Htk0 : cand_tileKey c0 = k) by reflexivity.
  assert (Hentry : entryPair (candidateEntry tilingScheme c0) = (k, offset e0))
    by reflexivity.
  clearbody c0.
  destruct HUniq as [UW UV UC UP]. split.
  - simpl. destruct (cand_pushed c0); [|done].
    rewrite fmap_cons, Hentry. by apply NoDup_cons_2.
  - change (visited (applyT c0 t)) with (c0 :: visited t).
    rewrite fmap_cons. apply NoDup_cons_2; [|done].
    intros Hin. apply list_elem_of_fmap in Hin as (c & Hpair & Hc).
    apply Hnotdone.
    apply (candidate_of_current e0 done t c); try done.
    rewrite <- Hpair. unfold candidatePair. by rewrite Hpar, Htk0.
  - intros e [= <-]. simpl. destruct (cand_pushed c0); [|by apply UC].
    rewrite fmap_cons, Hentry. apply not_elem_of_cons. split; [|by apply UC].
    unfold entryPair. intros [= Htk].
    rewrite <- Htk in Hk. apply Hlevel in Hk. lia.
  - intros c Hc. simpl in Hc. apply elem_of_cons in Hc as [->|Hc].
    + right. exists e0. split; [done|]. rewrite Hpar, Htk0. split; [done|].
      apply elem_of_app. right. left.
    + destruct (UP c Hc) as [[HnW Hne]|(e & Hcur & Hpair & Hdone)].
      * left. split; [|done]. simpl. destruct (cand_pushed c0); [|done].
        rewrite fmap_cons, Hentry. apply not_elem_of_cons. split; [|done].
        apply (pair_not_pushed (Some e0) done t); try done.
        by destruct (inv_candidate _ _ _ _ _ _ _ _ _ HInv c Hc)
          as (_ & _ & _ & Hp).
      * right. exists e. split; [done|]. split; [done|].
        apply elem_of_app. by left.
Qed.

Lemma Uniq_enter (M : gmap Z TileKeyEntry) (f : bool) (e : TileKeyEntry)
    (rest : list TileKeyEntry) (V : list Candidate) :
  Uniq None [] (mkTraversal M f (e :: rest) V) →
  Uniq (Some e) [] (mkTraversal M f rest V).
Proof.
  intros [UW UV UC UP]. cbn [workList visited] in *.
  rewrite fmap_cons in UW. apply list.NoDup_cons in UW as [HeW UW].
  split; cbn [workList visited]; try done.
  - by intros e' [= <-].
  - intros c Hc. destruct (UP c Hc) as [[HnW _]|(e' & Hcur & _)]; [|done].
    rewrite fmap_cons in HnW. apply not_elem_of_cons in HnW as [Hne HnW].
    left. split; [done|]. by intros e' [= <-].
Qed.

Lemma Uniq_skip (M : gmap Z TileKeyEntry) (f : bool) (e : TileKeyEntry)
    (rest : list TileKeyEntry) (V : list Candidate) :
  Uniq None [] (mkTraversal M f (e :: rest) V) →
  Uniq None [] (mkTraversal M f rest V).
Proof.
  intros [UW UV UC UP]. cbn [workList visited] in *.
  rewrite fmap_cons in UW. apply list.NoDup_cons in UW as [HeW UW].
  split; cbn [workList visited]; try done.
  intros c Hc. destruct (UP c Hc) as [[HnW _]|(e' & Hcur & _)]; [|done].
  rewrite fmap_cons in HnW. apply not_elem_of_cons in HnW as [Hne HnW].
  left. by split.
Qed.

Lemma Uniq_leave (e : TileKeyEntry) (done : list TileKey) (t : Traversal) :
  Uniq (Some e) done t → Uniq None [] t.
Proof.
  intros [UW UV UC UP]. split; try done.
  intros c Hc. left. split; [|done].
  destruct (UP c Hc) as [[HnW _]|(e' & [= <-] & Hpair & _)]; [done|].
  rewrite Hpair. by apply UC.
Qed.

Lemma Uniq_initial : Uniq None [] (initialTraversal this).
Proof using Hroots Hnodup.
  split; cbn [workList visited initialTraversal]; try done.
  - rewrite Hroots.
    assert (Hperm : entryPair <$> rev (rootEntry <$> offsets)
                    ≡ₚ pair rootTileKey <$> offsets).
    { rewrite <- Permutation_rev, <- list_fmap_compose. done. }
    rewrite Hperm. apply NoDup_fmap_2; [|done]. by intros o1 o2 [= ->].
  - apply NoDup_nil_2.
  - intros c Hc. by apply not_elem_of_nil in Hc.
Qed.

(** *** Termination *)

Abbreviation weightT := (workWeight tilingScheme maxTileLevel).
Abbreviation entryWeightT := (entryWeight tilingScheme maxTileLevel).

Lemma entryWeight_pos (e : TileKeyEntry) : (0 < entryWeightT e)%nat.
Proof. unfold entryWeight. destruct (_ - _)%nat; simpl; lia. Qed.

Lemma entryWeight_subdivided (e : TileKeyEntry) :
  subdividedT e = true →
  entryWeightT e
  = S (sum_list_with
         (subtreeSize tilingScheme (Z.to_nat maxTileLevel - level (tileKey e)))
         (getSubTileKeys tilingScheme (tileKey e))).
Proof.
  intros Hsub. apply subdivided_level in Hsub. unfold entryWeight.
  replace (S (Z.to_nat maxTileLevel) - level (tileKey e))%nat
    with (S (Z.to_nat maxTileLevel - level (tileKey e))) by lia.
  reflexivity.
Qed.

Lemma entryWeight_child (e : TileKeyEntry) (k : TileKey) :
  k ∈ getSubTileKeys tilingScheme (tileKey e) →
  entryWeightT (candidateEntry tilingScheme (candT e k))
  = subtreeSize tilingScheme (Z.to_nat maxTileLevel - level (tileKey e)) k.
Proof using Hlevel.
  intros Hk. unfold entryWeight. simpl. rewrite (Hlevel _ _ Hk).
  reflexivity.
Qed.


Abbreviation childrenInvT :=
  (childrenInv this tilingScheme maxTileLevel elevationRangeSource zoomLevels
     dataSources).
Abbreviation traversalInvT :=
  (traversalInv this tilingScheme maxTileLevel elevationRangeSource zoomLevels
     dataSources).

Lemma childrenInv_step (e : TileKeyEntry) (rest : list TileKeyEntry)
    (done rest' : list TileKey) (k : TileKey) (t : Traversal) :
  subdividedT e = true →
  getSubTileKeys tilingScheme (tileKey e) = done ++ k :: rest' →
  childrenInvT e rest done t →
  tileKeyEntries t !! getKeyForTileKeyAndOffset k (offset e) = None
  ∧ childrenInvT e rest (done ++ [k]) (applyT (candT e k) t).
Proof using Hroots Hlevel Hinj Hchildren Hparent.
  intros Hsub Hsplit (HI & HU & HO & Hwas & Hw).
  assert (Hk : k ∈ getSubTileKeys tilingScheme (tileKey e)).
  { rewrite Hsplit. apply elem_of_app. right. left. }
  pose proof (fresh_key e done rest' k t HI HU HO Hwas Hsub Hsplit) as Hnone.
  split; [exact Hnone|]. split; [by apply Inv_child|].
  split; [by apply (Uniq_child e done rest')|]. split.
  { apply offsetsFromRoots_child; [done|]. rewrite root_offsets.
    by apply (wasPushed_offset t). }
  split.
  { eapply wasPushed_mono; [|done]. intros x Hx. simpl. by right. }
  rewrite sum_list_with_app.
  pose proof (entryWeight_child e k Hk) as Hchild.
  set (c0 := candT e k) in *. clearbody c0.
  unfold workWeight in *. cbn [workList applyCandidate sum_list_with].
  destruct (cand_pushed c0); cbn [sum_list_with]; lia.
Qed.

Lemma traversalInv_step (M : gmap Z TileKeyEntry) (f : bool)
    (e : TileKeyEntry) (rest : list TileKeyEntry) (V : list Candidate) :
  traversalInvT (mkTraversal M f (e :: rest) V) →
  ∃ t', visitEntry this tilingScheme maxTileLevel elevationRangeSource
          zoomLevels dataSources e (mkTraversal M f rest V) = Returned t'
        ∧ traversalInvT t'
        ∧ (weightT (workList t') < weightT (e :: rest))%nat.
Proof using Hroots Hlevel Hinj Hchildren Hparent.
  intros (HInv & HUniq & Hoff).
  assert (Hwas : wasPushedT (mkTraversal M f rest V) e).
  { apply (inv_workList _ _ _ _ _ _ _ _ _ HInv). left. }
  apply offsetsFromRoots_pop in Hoff as [Hpop Hoe].
  rewrite visitEntry_unfold. destruct (subdividedT e) eqn:Hsub.
  - pose proof (Inv_enter _ _ _ _ _ _ _ _ _ _ _ HInv) as HIe.
    destruct (Inv_cached _ _ _ _ _ _ _ _ _ e HIe Hwas)
      as (cached & Hlook & Hgt).
    rewrite Hlook, Hgt.
    destruct (visitChildren_total this tilingScheme elevationRangeSource
                (childrenInvT e rest) e
                (getSubTileKeys tilingScheme (tileKey e)))
      with (t := mkTraversal M f rest V)
      as (t' & Hrun & (HI' & HU' & HO' & _ & Hw')).
    + intros done k rest' t1 Hsplit HP. by apply (childrenInv_step e rest done rest').
    + split; [done|]. split; [by apply Uniq_enter|]. split; [done|].
      split; [done|]. simpl. lia.
    + exists t'. split; [exact Hrun|]. split.
      * split; [by apply (Inv_leave _ _ _ _ _ _ e)|].
        split; [|done].
        by apply (Uniq_leave e (getSubTileKeys tilingScheme (tileKey e)) t').
      * pose proof (entryWeight_subdivided e Hsub) as Hwe.
        unfold workWeight in *. simpl. lia.
  - exists (mkTraversal M f rest V). split; [done|]. split.
    + split; [by apply (Inv_skip _ _ _ _ _ _ M f e)|].
      split; [by apply (Uniq_skip M f e)|done].
    + pose proof (entryWeight_pos e). unfold workWeight. simpl. lia.
Qed.

Lemma traversalInv_initial : traversalInvT (initialTraversal this).
Proof using Hroots Hnodup.
  split; [apply Inv_initial|].
  split; [apply Uniq_initial|apply offsetsFromRoots_initial].
Qed.

Lemma workWeight_roots :
  weightT (workList (initialTraversal this))
  = fuelBound this tilingScheme maxTileLevel.
Proof using Hroots.
  unfold fuelBound. simpl. rewrite <- (length_rev (m_rootTileKeys this)).
  assert (Hall : ∀ e, e ∈ rev (m_rootTileKeys this) →
            entryWeightT e
            = subtreeSize tilingScheme (S (Z.to_nat maxTileLevel)) rootTileKey).
  { intros e He. apply (proj1 (elem_of_rev _ _)) in He.
    apply root_item in He as (o & _ & ->). reflexivity. }
  induction (rev (m_rootTileKeys this)) as [|e l IH]; [done|].
  unfold workWeight in *. simpl. rewrite IH.
  - rewrite Hall; [done|left].
  - intros e' He'. apply Hall. by right.
Qed.

Abbreviation computeT :=
  (compute this tilingScheme maxTileLevel elevationRangeSource zoomLevels
     dataSources).
Abbreviation traverseT :=
  (traverse this tilingScheme maxTileLevel elevationRangeSource zoomLevels
     dataSources).

Lemma traversalInv_traverse (fuel : nat) (t' : Traversal) :
  traverseT fuel (initialTraversal this) = Returned t' → traversalInvT t'.
Proof using Hroots Hlevel Hinj Hnodup Hchildren Hparent.
  intros Hrun.
  apply (traverse_inv this tilingScheme maxTileLevel elevationRangeSource
           zoomLevels dataSources traversalInvT) in Hrun as [HP _];
    [done| |apply traversalInv_initial].
  intros M f e rest V t1 HP Hvisit.
  destruct (traversalInv_step M f e rest V HP) as (t2 & Hvisit' & HP' & _).
  congruence.
Qed.

Lemma compute_no_assert (fuel : nat) (site : AssertSite) :
  computeT fuel ≠ AssertionFailed site.
Proof using Hroots Hlevel Hinj Hnodup Hchildren Hparent.
  unfold compute.
  pose proof (traverse_no_assert this tilingScheme maxTileLevel
                elevationRangeSource zoomLevels dataSources traversalInvT)
    as Hsafe.
  destruct (traverseT fuel (initialTraversal this)) as [t| site'|] eqn:Hrun;
    try done.
  exfalso. apply (Hsafe) with (fuel := fuel) (t := initialTraversal this)
    (site := site'); [|apply traversalInv_initial|exact Hrun].
  intros M f e rest V HP.
  destruct (traversalInv_step M f e rest V HP) as (t2 & Hvisit & HP' & _).
  by exists t2.
Qed.

Lemma compute_returns (fuel : nat) :
  (fuelBound this tilingScheme maxTileLevel ≤ fuel)%nat →
  ∃ r, computeT fuel = Returned r.
Proof using Hroots Hlevel Hinj Hnodup Hchildren Hparent.
  intros Hfuel. unfold compute.
  destruct (traverse_enough_fuel this tilingScheme maxTileLevel
              elevationRangeSource zoomLevels dataSources traversalInvT
              (λ t, weightT (workList t))) with (fuel := fuel)
    (t := initialTraversal this) as [t Hrun].
  - intros M f e rest V HP. by apply traversalInv_step.
  - apply traversalInv_initial.
  - by rewrite workWeight_roots.
  - rewrite Hrun. by eexists.
Qed.

Lemma root_keys_NoDup : NoDup (entryKey <$> m_rootTileKeys this).
Proof using Hroots Hinj Hnodup.
  rewrite Hroots, <- list_fmap_compose.
  apply NoDup_fmap_2_strong; [|done].
  intros o1 o2 Ho1 Ho2 Hkey. unfold compose, entryKey in Hkey. simpl in Hkey.
  apply Hinj in Hkey as [_ Ho]; [done|simpl; lia..|done|done].
Qed.

Lemma stored_keys_NoDup (t : Traversal) :
  InvT None [] t →
  NoDup ((entryKey <$> m_rootTileKeys this)
         ++ (cand_key <$> filter (λ c, cand_pushed c = true) (visited t))).
Proof using Hroots Hinj Hnodup.
  intros HInv. apply list.NoDup_app. split; [apply root_keys_NoDup|].
  split; [|by apply (inv_fresh _ _ _ _ _ _ _ _ _ HInv)].
  intros κ Hroot Hstored.
  apply list_elem_of_fmap in Hroot as (item & -> & Hitem).
  apply list_elem_of_fmap in Hstored as (c & Hkey & Hc).
  apply list_elem_of_filter in Hc as [Hp Hc].
  destruct (inv_roots _ _ _ _ _ _ _ _ _ HInv item Hitem)
    as (item' & _ & _ & Hlook).
  pose proof (inv_stored _ _ _ _ _ _ _ _ _ HInv c Hc Hp) as Hlook'.
  rewrite <- Hkey, Hlook in Hlook'. discriminate.
Qed.

Lemma entries_iff (t : Traversal) (κ : Z) (e : TileKeyEntry) :
  InvT None [] t →
  tileKeyEntries t !! κ = Some e
  ↔ (∃ item, item ∈ m_rootTileKeys this ∧ κ = entryKey item
             ∧ e = unboundedEntry item)
    ∨ (∃ c, c ∈ filter (λ c, cand_pushed c = true) (visited t)
            ∧ κ = cand_key c ∧ e = candidateEntry tilingScheme c).
Proof using Hroots Hinj Hnodup.
  intros HInv. split.
  - intros Hlook.
    destruct (inv_entries _ _ _ _ _ _ _ _ _ HInv _ _ Hlook)
      as [Hroot|(c & Hc & Hp & Hrest)]; [by left|right].
    exists c. split; [|done]. by apply list_elem_of_filter.
  - intros [(item & Hitem & -> & ->)|(c & Hc & -> & ->)].
    + destruct (inv_roots _ _ _ _ _ _ _ _ _ HInv item Hitem)
        as (item' & Hitem' & Hkey & Hlook).
      rewrite Hlook. do 2 f_equal.
      apply root_item in Hitem as (o & Ho & ->).
      apply root_key_inj in Hkey as [_ ->]; [done..|simpl; lia|done].
    + apply list_elem_of_filter in Hc as [Hp Hc].
      by apply (inv_stored _ _ _ _ _ _ _ _ _ HInv).
Qed.

End Tree.


(** ** One root, every tile subdivided, [maxTileLevel = 0] *)

Section LevelZero.
Context `{HarpUtils}.
Variables (this : FrustumIntersection) (tilingScheme : TilingScheme)
  (elevationRangeSource : option ElevationRangeSource)
  (zoomLevels : list Z) (dataSource : DataSource).
Hypothesis Hroot : m_rootTileKeys this = [rootEntry 0].
Hypothesis Hlevel :
  ∀ k c, c ∈ getSubTileKeys tilingScheme k → level c = S (level k).
Hypothesis Halways : ∀ zoomLevel k, shouldSubdivide dataSource zoomLevel k = true.

Abbreviation cand0 :=
  (childCandidate this tilingScheme elevationRangeSource (rootEntry 0)).

Lemma subdivided_root :
  subdivided 0 zoomLevels [dataSource] (rootEntry 0) = true.
Proof using Halways. unfold subdivided. simpl. by rewrite Halways. Qed.

Lemma subdivided_level0 (e : TileKeyEntry) :
  subdivided 0 zoomLevels [dataSource] e = true → level (tileKey e) = 0%nat.
Proof.
  unfold subdivided. intros Hsub. apply andb_true_iff in Hsub as [Hlev _].
  apply negb_true_iff, Z.ltb_ge in Hlev. lia.
Qed.


End LevelZero.

(** ** The concrete setting *)

Section ExampleFacts.

Lemma quadtree_tree : TreeScheme Example.quadtree.
Proof.
  split; [|split].
  - intros k c Hc. simpl in Hc. unfold Example.quadSubTileKeys in Hc.
    repeat (apply elem_of_cons in Hc as [->|Hc]); try reflexivity.
    by apply not_elem_of_nil in Hc.
  - intros k. simpl. unfold Example.quadSubTileKeys.
    repeat (apply NoDup_cons_2;
            [rewrite ?not_elem_of_cons; repeat split;
             try (intros [=]; lia); apply not_elem_of_nil|]).
    apply NoDup_nil_2.
  - intros [r1 c1 l1] [r2 c2 l2] c H1 H2. simpl in H1, H2.
    unfold Example.quadSubTileKeys in H1, H2. simpl in H1, H2.
    repeat (apply elem_of_cons in H1 as [->|H1]);
      try (by apply not_elem_of_nil in H1);
      repeat (apply elem_of_cons in H2 as [H2|H2]);
      try (by apply not_elem_of_nil in H2);
      injection H2 as Hr Hc Hl; f_equal; lia.
Qed.

Lemma example_key_injective (maxLevel : nat) (offsets : list Z) :
  KeyInjective (H0 := Example.harp) maxLevel offsets.
Proof.
  intros [r1 c1 l1] o1 [r2 c2 l2] o2 _ _ _ _ Hkey. simpl in Hkey.
  injection Hkey as Hkey. apply (inj encode) in Hkey.
  by injection Hkey as -> -> -> ->.
Qed.

Lemma wrapping_roots : RootsSelected Example.wrapping Example.wrapOffsets.
Proof.
  split; [|by vm_compute].
  apply (bool_decide_unpack _). by vm_compute.
Qed.

Lemma flat_roots : RootsSelected Example.flat [0%Z].
Proof. split; [apply NoDup_singleton|by vm_compute]. Qed.

End ExampleFacts.

(** ** A pruned child that clears the flag *)

Section PrunedFinal.

Lemma flat_elevation_run :
  ∃ r,
    compute Example.flat Example.quadtree 0 (Some Example.elevation) [0%Z]
      [Example.alwaysSubdivide] 10 = Returned r
    ∧ res_calculationFinal r = false
    ∧ forallb Example.storedFinal (res_visited r) = true
    ∧ existsb (Example.prunedApproximate (res_tileKeyEntries r))
        (res_visited r) = true.
Proof. eexists. split; [by vm_compute|]. by vm_compute. Qed.

(** C9. There is a call of [compute] that returns with [calculationFinal]
    false although every entry of its result is a root or a stored child
    whose elevation range was [FinalPrecise]: a child whose range is not
    final is asked for its range before its area is found to be 0; it is
    absent from the result and has cleared the flag. *)
Theorem final_false_from_pruned_child :
  ∃ (three : ThreeJs) (harp : HarpUtils) (this : FrustumIntersection)
    (tilingScheme : TilingScheme) (maxTileLevel : Z)
    (src : ElevationRangeSource) (zoomLevels : list Z)
    (dataSources : list DataSource) (fuel : nat) (r : Result),
    compute this tilingScheme maxTileLevel (Some src) zoomLevels dataSources
      fuel = Returned r
    ∧ res_calculationFinal r = false
    ∧ (∀ κ e, res_tileKeyEntries r !! κ = Some e →
         (∃ item, item ∈ m_rootTileKeys this ∧ e = unboundedEntry item)
         ∨ (∃ c range, c ∈ res_visited r ∧ e = candidateEntry tilingScheme c
                       ∧ cand_range c = Some range
                       ∧ calculationStatus range = FinalPrecise))
    ∧ (∃ c range, c ∈ res_visited r
                  ∧ cand_range c = Some range
                  ∧ range = getElevationRange src (cand_tileKey c)
                  ∧ calculationStatus range ≠ FinalPrecise
                  ∧ (cand_area c == 0)%Q
                  ∧ cand_pushed c = false
                  ∧ res_tileKeyEntries r !! cand_key c = None).
Proof.
  destruct flat_elevation_run as (r & Hrun & Hfalse & Hstored & Hpruned).
  exists Example.three, Example.harp, Example.flat, Example.quadtree, 0%Z,
    Example.elevation, [0%Z], [Example.alwaysSubdivide], 10%nat, r.
  split; [exact Hrun|]. split; [exact Hfalse|].
  pose proof Hrun as Hrun'.
  apply compute_Returned in Hrun' as (t & Htrav & ->).
  cbn [res_tileKeyEntries res_calculationFinal res_visited] in *.
  apply Inv_traverse in Htrav as [HInv _].
  assert (Hquery : ∀ c, c ∈ visited t →
            cand_range c
            = Some (getElevationRange Example.elevation (cand_tileKey c))).
  { intros c Hc.
    destruct (inv_candidate _ _ _ _ _ _ _ _ _ HInv c Hc) as (Hdet & _).
    by rewrite Hdet. }
  split.
  - intros κ e Hlook.
    destruct (inv_entries _ _ _ _ _ _ _ _ _ HInv _ _ Hlook)
      as [(item & Hitem & _ & ->)|(c & Hc & Hp & _ & ->)].
    + left. by exists item.
    + right. rewrite forallb_forall in Hstored.
      specialize (Hstored c (proj1 (list_elem_of_In _ _) Hc)).
      unfold Example.storedFinal, queryFinal in Hstored.
      rewrite Hp, (Hquery c Hc) in Hstored. simpl in Hstored.
      apply bool_decide_eq_true in Hstored.
      exists c, (getElevationRange Example.elevation (cand_tileKey c)).
      split; [done|]. split; [done|]. split; [by apply Hquery|done].
  - apply existsb_exists in Hpruned as (c & Hc & Hcheck).
    apply list_elem_of_In in Hc. unfold Example.prunedApproximate in Hcheck.
    repeat (apply andb_true_iff in Hcheck as [Hcheck ?]).
    exists c, (getElevationRange Example.elevation (cand_tileKey c)).
    split; [done|]. split; [by apply Hquery|]. split; [done|].
    split.
    { match goal with Hq : negb (queryFinal c) = true |- _ =>
        apply negb_true_iff in Hq; unfold queryFinal in Hq;
        rewrite (Hquery c Hc) in Hq; by apply bool_decide_eq_false in Hq
      end. }
    split.
    { match goal with Hq : Qeq_bool _ _ = true |- _ =>
        by apply Qeq_bool_iff in Hq end. }
    split; [by apply negb_true_iff|].
    match goal with Hq : match _ with Some _ => _ | None => _ end = true |- _ =>
      by destruct (tileKeyEntries t !! cand_key c) end.
Qed.

End PrunedFinal.

(** ** The theorems at work in the concrete setting *)

Section Instances.



Lemma root_selector_entries_witness :
  (m_tileWrappingEnabled Example.flat = false
   ∧ m_rootTileKeys
       (computeRequiredInitialRootTileKeys Example.flat
          (position Example.camera))
     = [mkTileKeyEntry (fromRowColumnLevel 0 0 0) (Num 0) 0 0 0])
  ∧ (type (projection (mapView Example.wrapping)) = Planar
     ∧ m_tileWrappingEnabled Example.wrapping = true
     ∧ offsetRange Example.wrapping (position Example.camera) = 2%Z
     ∧ map offset
         (m_rootTileKeys
            (computeRequiredInitialRootTileKeys Example.wrapping
               (position Example.camera)))
       = [-2; -1; 0; 1; 2]%Z).
Proof.
  split.
  - split; [reflexivity|].
    exact (proj1 (root_selector_entries Example.flat
                    (position Example.camera))
             (or_intror eq_refl)).
  - split; [reflexivity|]. split; [reflexivity|]. split; [by vm_compute|].
    destruct (proj2 (root_selector_entries Example.wrapping
                       (position Example.camera))
                (conj eq_refl eq_refl))
      as (_ & _ & _ & Hoffsets & _).
    rewrite Hoffsets. by vm_compute.
Defined.

Lemma offset_range_formula_witness :
  type (projection (mapView Example.wrapping)) = Planar
  ∧ m_tileWrappingEnabled Example.wrapping = true
  ∧ offsetRange Example.wrapping (position Example.camera)
    = offsetRangeAsStated Example.wrapping (position Example.camera)
  ∧ offsetRangeAsStated Example.wrapping (position Example.camera) = 2%Z.
Proof.
  split; [reflexivity|]. split; [reflexivity|].
  split; [|by vm_compute].
  exact (proj1 (offset_range_formula Example.wrapping
                  (position Example.camera) eq_refl eq_refl)).
Defined.


Lemma box_area_estimate_witness :
  (rejected Example.flat Example.eastBox = true
   ∧ computeSubTileArea Example.flat (IsBox3 Example.eastBox) = 0%Q)
  ∧ (rejected Example.flat Example.westBox = false
     ∧ (computeSubTileArea Example.flat (IsBox3 Example.westBox) == 16200)%Q).
Proof.
  split.
  - split; [reflexivity|].
    exact (proj1 (box_area_estimate Example.flat Example.eastBox) eq_refl).
  - split; [reflexivity|].
    rewrite (proj2 (box_area_estimate Example.flat Example.westBox) eq_refl).
    by vm_compute.
Defined.

Lemma foreign_elevation_source_ignored_witness :
  ts_ref (getTilingScheme Example.foreignElevation) ≠ ts_ref Example.quadtree
  ∧ compute Example.flat Example.quadtree 0 (Some Example.foreignElevation)
      [0%Z] [Example.alwaysSubdivide] 10
    = compute Example.flat Example.quadtree 0 None [0%Z]
        [Example.alwaysSubdivide] 10.
Proof.
  assert (Hne : ts_ref (getTilingScheme Example.foreignElevation)
                ≠ ts_ref Example.quadtree) by (simpl; lia).
  split; [exact Hne|].
  exact (proj1 (foreign_elevation_source_ignored Example.flat Example.quadtree
                  0 [0%Z] [Example.alwaysSubdivide] Example.foreignElevation
                  10 Hne)).
Defined.

Lemma spherical_offsets_zero_witness :
  type (projection (mapView Example.globe)) = Spherical
  ∧ m_tileWrappingEnabled Example.globe = true
  ∧ m_rootTileKeys
      (computeRequiredInitialRootTileKeys Example.globe
         (position Example.camera))
    = [rootEntry 0].
Proof.
  split; [reflexivity|]. split; [reflexivity|].
  exact (proj1 (spherical_offsets_zero Example.globe
                  (position Example.camera) eq_refl)).
Defined.



End Instances.

(** ** More on the area estimator *)

Section AreaMore.
Context `{HarpUtils}.

Lemma computeSubTileArea_OrientedBox3_unfold (this : FrustumIntersection)
    (tileBounds : OrientedBox3) :
  computeSubTileArea_OrientedBox3 this tileBounds
  = if negb (intersects tileBounds (m_frustum this))
    then 0%Q
    else
      let size :=
        THREE.getSize (expandByPoints None (projectedPoints this tileBounds)) in
      (THREE.x2 size * THREE.y2 size)%Q.
Proof. reflexivity. Qed.

Lemma expandByPoint_in (box : THREE.Box2) (p : THREE.Vector2) :
  inBox2 (THREE.expandByPoint box p) (THREE.x2 p) (THREE.y2 p).
Proof.
  destruct box as [[lo hi]|]; simpl.
  - repeat split;
      [apply Q.le_min_r|apply Q.le_max_r|apply Q.le_min_r|apply Q.le_max_r].
  - repeat split; apply Qle_refl.
Qed.

Lemma expandByPoint_keeps (box : THREE.Box2) (p : THREE.Vector2) (qx qy : Q) :
  inBox2 box qx qy → inBox2 (THREE.expandByPoint box p) qx qy.
Proof.
  destruct box as [[lo hi]|]; simpl; [|done].
  intros (Hx1 & Hx2 & Hy1 & Hy2). repeat split.
  - eapply Qle_trans; [apply Q.le_min_l|done].
  - eapply Qle_trans; [done|apply Q.le_max_l].
  - eapply Qle_trans; [apply Q.le_min_l|done].
  - eapply Qle_trans; [done|apply Q.le_max_l].
Qed.

Lemma expandByPoints_keeps (points : list THREE.Vector3) (box : THREE.Box2)
    (qx qy : Q) :
  inBox2 box qx qy → inBox2 (expandByPoints box points) qx qy.
Proof.
  revert box. induction points as [|p points IH]; intros box Hin; [done|].
  simpl. apply IH. by apply expandByPoint_keeps.
Qed.

Lemma expandByPoints_in (points : list THREE.Vector3) (box : THREE.Box2)
    (p : THREE.Vector3) :
  p ∈ points → inBox2 (expandByPoints box points) (THREE.x p) (THREE.y p).
Proof.
  revert box. induction points as [|p0 points IH]; intros box Hp.
  - by apply not_elem_of_nil in Hp.
  - simpl. apply elem_of_cons in Hp as [->|Hp]; [|by apply IH].
    apply expandByPoints_keeps.
    apply (expandByPoint_in box (THREE.mkVector2 (THREE.x p0) (THREE.y p0))).
Qed.

Lemma inBox2_ordered (box : THREE.Box2) (px py : Q) :
  inBox2 box px py → orderedBox2 box.
Proof.
  destruct box as [[lo hi]|]; simpl; [|done].
  intros (Hx1 & Hx2 & Hy1 & Hy2). split; eapply Qle_trans; done.
Qed.

Lemma getSize_nonneg (box : THREE.Box2) :
  orderedBox2 box →
  (0 <= THREE.x2 (THREE.getSize box))%Q ∧ (0 <= THREE.y2 (THREE.getSize box))%Q.
Proof.
  destruct box as [[lo hi]|]; simpl.
  - intros [Hx Hy]. split; lra.
  - intros _. split; apply Qle_refl.
Qed.

Lemma Qmin_cases (a b : Q) : Qmin a b = a ∨ Qmin a b = b.
Proof.
  unfold Qmin, GenericMinMax.gmin. destruct (a ?= b)%Q; auto.
Qed.

Lemma Qmax_cases (a b : Q) : Qmax a b = a ∨ Qmax a b = b.
Proof.
  unfold Qmax, GenericMinMax.gmax. destruct (a ?= b)%Q; auto.
Qed.

Lemma expandByPoint_tight (box : THREE.Box2) (seen : list THREE.Vector3)
    (p : THREE.Vector3) :
  tightBox2 box seen →
  tightBox2
    (THREE.expandByPoint box (THREE.mkVector2 (THREE.x p) (THREE.y p)))
    (seen ++ [p]).
Proof.
  assert (Hnew : p ∈ seen ++ [p]) by (apply elem_of_app; right; left).
  assert (Hold : ∀ q, q ∈ seen → q ∈ seen ++ [p])
    by (intros q Hq; apply elem_of_app; by left).
  destruct box as [[lo hi]|]; simpl.
  - intros ((p1 & Hp1 & H1) & (p2 & Hp2 & H2) & (p3 & Hp3 & H3)
            & (p4 & Hp4 & H4)).
    split; [|split; [|split]].
    + destruct (Qmin_cases (THREE.x2 lo) (THREE.x p)) as [->| ->];
        [exists p1|exists p]; auto.
    + destruct (Qmax_cases (THREE.x2 hi) (THREE.x p)) as [->| ->];
        [exists p2|exists p]; auto.
    + destruct (Qmin_cases (THREE.y2 lo) (THREE.y p)) as [->| ->];
        [exists p3|exists p]; auto.
    + destruct (Qmax_cases (THREE.y2 hi) (THREE.y p)) as [->| ->];
        [exists p4|exists p]; auto.
  - intros _. repeat split; exists p; auto.
Qed.

Lemma expandByPoints_tight (points seen : list THREE.Vector3)
    (box : THREE.Box2) :
  tightBox2 box seen → tightBox2 (expandByPoints box points) (seen ++ points).
Proof.
  revert box seen. induction points as [|p points IH]; intros box seen Ht.
  - simpl. by rewrite app_nil_r.
  - simpl. replace (seen ++ p :: points) with ((seen ++ [p]) ++ points)
      by (by rewrite <- app_assoc).
    apply IH. by apply expandByPoint_tight.
Qed.

(** X1. The screen rectangle of an oriented box that meets the frustum: it
    contains the eight projected corners of the box, each of its sides goes
    through one of them, and the estimate is its width times its height.  A
    box that misses the frustum has area 0. *)
Theorem oriented_box_area_is_bounding_rectangle (this : FrustumIntersection)
    (tileBounds : OrientedBox3) :
  (intersects tileBounds (m_frustum this) = false →
   computeSubTileArea this (IsOrientedBox3 tileBounds) = 0%Q)
  ∧ (intersects tileBounds (m_frustum this) = true →
     ∃ lo hi,
       (∀ p, p ∈ projectedPoints this tileBounds →
             (THREE.x2 lo <= THREE.x p)%Q ∧ (THREE.x p <= THREE.x2 hi)%Q
             ∧ (THREE.y2 lo <= THREE.y p)%Q ∧ (THREE.y p <= THREE.y2 hi)%Q)
       ∧ (∃ p, p ∈ projectedPoints this tileBounds ∧ THREE.x p = THREE.x2 lo)
       ∧ (∃ p, p ∈ projectedPoints this tileBounds ∧ THREE.x p = THREE.x2 hi)
       ∧ (∃ p, p ∈ projectedPoints this tileBounds ∧ THREE.y p = THREE.y2 lo)
       ∧ (∃ p, p ∈ projectedPoints this tileBounds ∧ THREE.y p = THREE.y2 hi)
       ∧ computeSubTileArea this (IsOrientedBox3 tileBounds)
         = ((THREE.x2 hi - THREE.x2 lo) * (THREE.y2 hi - THREE.y2 lo))%Q).
Proof.
  cbn [computeSubTileArea]. rewrite computeSubTileArea_OrientedBox3_unfold.
  split; intros ->; [reflexivity|]. cbn [negb].
  pose proof (expandByPoints_tight (projectedPoints this tileBounds) [] None
                eq_refl) as Htight.
  rewrite app_nil_l in Htight.
  pose proof (expandByPoints_in (projectedPoints this tileBounds) None) as Hin.
  destruct (expandByPoints None (projectedPoints this tileBounds))
    as [[lo hi]|]; [|discriminate].
  exists lo, hi. destruct Htight as (H1 & H2 & H3 & H4).
  split; [intros p Hp; exact (Hin p Hp)|]. by repeat split.
Qed.


(** X3. A box of the ground plane without width or without height has
    estimate 0, whatever the view: such a child is pruned. *)
Theorem flat_box_area_zero (this : FrustumIntersection)
    (tileBounds : THREE.Box3) :
  THREE.x (THREE.min tileBounds) = THREE.x (THREE.max tileBounds)
  ∨ THREE.y (THREE.min tileBounds) = THREE.y (THREE.max tileBounds) →
  (computeSubTileArea this (IsBox3 tileBounds) == 0)%Q
  ∧ Qltb 0 (computeSubTileArea this (IsBox3 tileBounds)) = false.
Proof.
  intros Hflat.
  assert (Hzero : (computeSubTileArea this (IsBox3 tileBounds) == 0)%Q).
  { destruct (rejected this tileBounds) eqn:Hrej.
    - by rewrite computeSubTileArea_rejected.
    - rewrite (computeSubTileArea_accepted this tileBounds Hrej). cbv zeta.
      destruct Hflat as [-> | ->].
      + match goal with |- (Qabs ?s / 2 == 0)%Q =>
          assert (Hs : (s == 0)%Q) by (unfold shoelace4, cross; ring) end.
        by rewrite Hs.
      + match goal with |- (Qabs ?s / 2 == 0)%Q =>
          assert (Hs : (s == 0)%Q) by (unfold shoelace4, cross; ring) end.
        by rewrite Hs. }
  split; [exact Hzero|]. apply Qltb_ge. rewrite Hzero. apply Qle_refl.
Qed.

End AreaMore.

(** ** More on the root entries *)

Section RootsMore.
Context `{HarpUtils}.

Lemma Qfloor_unique (x : Q) (s : Z) :
  Qfloor x = s ↔ (inject_Z s <= x)%Q ∧ (x < inject_Z s + 1)%Q.
Proof.
  split.
  - intros <-. split; [apply Qfloor_le|].
    pose proof (Qlt_floor x) as Hlt. rewrite inject_Z_plus in Hlt. exact Hlt.
  - intros [Hlo Hhi].
    assert (H1 : (s ≤ Qfloor x)%Z).
    { rewrite <- (Qfloor_Z s). by apply Qfloor_resp_le. }
    assert (H2 : (Qfloor x < s + 1)%Z).
    { rewrite Zlt_Qlt, inject_Z_plus.
      eapply Qle_lt_trans; [apply Qfloor_le|exact Hhi]. }
    lia.
Qed.

Lemma Math_round_unique (x : Q) (s : Z) :
  Math_round x = s
  ↔ (inject_Z s - (1 # 2) <= x)%Q ∧ (x < inject_Z s + (1 # 2))%Q.
Proof.
  unfold Math_round. rewrite Qfloor_unique. split; intros [H1 H2]; split; lra.
Qed.

(** X4. [startOffset] is the world copy the camera is over: it is [s]
    exactly when the camera's longitude lies in [360 s - 180, 360 s + 180),
    the eastern border going to the next copy. *)
Theorem start_offset_world_copy (this : FrustumIntersection)
    (worldCenter : THREE.Vector3) (s : Z) :
  startOffset this worldCenter = s
  ↔ (360 * inject_Z s - 180
     <= longitude (unprojectPoint (projection (mapView this)) worldCenter))%Q
    ∧ (longitude (unprojectPoint (projection (mapView this)) worldCenter)
       < 360 * inject_Z s + 180)%Q.
Proof.
  unfold startOffset. rewrite Math_round_unique.
  set (lon := longitude _).
  assert (Hdiv : (lon / 360 == lon * (1 # 360))%Q) by reflexivity.
  rewrite Hdiv. split; intros [H1 H2]; split; lra.
Qed.

Lemma rootTileKeys_frame (a b : FrustumIntersection)
    (worldCenter : THREE.Vector3) :
  mapView a = mapView b → m_camera a = m_camera b →
  m_tileWrappingEnabled a = m_tileWrappingEnabled b →
  m_rootTileKeys (computeRequiredInitialRootTileKeys a worldCenter)
  = m_rootTileKeys (computeRequiredInitialRootTileKeys b worldCenter).
Proof.
  intros Hm Hc Hw.
  unfold computeRequiredInitialRootTileKeys, startOffset, offsetRange,
    worldLengthHorizontal.
  rewrite Hm, Hc, Hw. by destruct (_ || _).
Qed.

Lemma rootTileKeys_count (this : FrustumIntersection)
    (worldCenter : THREE.Vector3) :
  ∃ s r : Z,
    (0 ≤ r ≤ 7)%Z
    ∧ m_rootTileKeys (computeRequiredInitialRootTileKeys this worldCenter)
      = rootEntry <$> seqZ (s - r) (2 * r + 1).
Proof.
  destruct (decide (type (projection (mapView this)) = Planar)) as [Hty|Hty];
    [destruct (m_tileWrappingEnabled this) eqn:Hon|].
  - exists (startOffset this worldCenter), (offsetRange this worldCenter).
    split; [apply offsetRange_bounds|by apply rootTileKeys_wrap].
  - exists 0%Z, 0%Z. split; [lia|]. apply rootTileKeys_noWrap. by right.
  - exists 0%Z, 0%Z. split; [lia|]. apply rootTileKeys_noWrap. by left.
Qed.

(** X5. [updateFrustum] leaves the camera, the map view, the two flags and
    the entry map as they are, sets the frustum from the new view projection
    matrix, and writes between 1 and 15 root entries: level 0, area and
    elevations 0, consecutive offsets.  The roots depend on the camera, the
    map view and the wrapping flag only: they are those the selector gives
    for the camera position, and a second [updateFrustum], whatever its
    override, writes the same roots. *)
Theorem updateFrustum_roots (this : FrustumIntersection)
    (projectionMatrixOverride : option Matrix4) :
  let this' := updateFrustum this projectionMatrixOverride in
  (m_camera this' = m_camera this ∧ mapView this' = mapView this
   ∧ m_extendedFrustumCulling this' = m_extendedFrustumCulling this
   ∧ m_tileWrappingEnabled this' = m_tileWrappingEnabled this
   ∧ m_tileKeyEntries this' = m_tileKeyEntries this)
  ∧ m_frustum this' = setFromMatrix (m_viewProjectionMatrix this')
  ∧ m_rootTileKeys this'
    = m_rootTileKeys
        (computeRequiredInitialRootTileKeys this (position (m_camera this)))
  ∧ (∃ s r : Z,
       (0 ≤ r ≤ 7)%Z
       ∧ m_rootTileKeys this' = rootEntry <$> seqZ (s - r) (2 * r + 1)
       ∧ Z.of_nat (length (m_rootTileKeys this')) = (2 * r + 1)%Z)
  ∧ (∀ override',
       m_rootTileKeys (updateFrustum this' override') = m_rootTileKeys this').
Proof.
  intros this'.
  assert (Hframe : m_camera this' = m_camera this ∧ mapView this' = mapView this
                   ∧ m_extendedFrustumCulling this' = m_extendedFrustumCulling this
                   ∧ m_tileWrappingEnabled this' = m_tileWrappingEnabled this
                   ∧ m_tileKeyEntries this' = m_tileKeyEntries this).
  { subst this'. unfold updateFrustum, computeRequiredInitialRootTileKeys.
    cbn [m_camera mapView m_tileWrappingEnabled].
    by destruct (_ || _). }
  assert (Hfrustum : m_frustum this' = setFromMatrix (m_viewProjectionMatrix this')).
  { subst this'. unfold updateFrustum, computeRequiredInitialRootTileKeys.
    cbn [m_camera mapView m_tileWrappingEnabled].
    by destruct (_ || _). }
  assert (Hroots : ∀ (that : FrustumIntersection) o,
            m_rootTileKeys (updateFrustum that o)
            = m_rootTileKeys
                (computeRequiredInitialRootTileKeys that
                   (position (m_camera that)))).
  { intros that o. unfold updateFrustum. cbn [m_camera].
    by apply rootTileKeys_frame. }
  split; [exact Hframe|]. split; [exact Hfrustum|].
  split; [apply Hroots|]. split.
  - subst this'. rewrite Hroots.
    destruct (rootTileKeys_count this (position (m_camera this)))
      as (s & r & Hr & Heq).
    exists s, r. split; [exact Hr|]. split; [exact Heq|].
    rewrite Heq, length_fmap, length_seqZ. lia.
  - intros override'. rewrite (Hroots this'). subst this'. rewrite Hroots.
    destruct Hframe as (Hc & Hm & _ & Hw & _). rewrite Hc.
    by apply rootTileKeys_frame.
Qed.

(** X6. The offsets of a result stay with the roots: computed from the
    roots the selector wrote, every entry has offset 0 when the projection
    does not wrap (not planar, or tile wrapping off), and an offset within
    [offsetRange], hence within 7, of [startOffset] when it does. *)
Theorem result_offsets_in_window (this : FrustumIntersection)
    (worldCenter : THREE.Vector3) (tilingScheme : TilingScheme)
    (maxTileLevel : Z) (elevationRangeSource : option ElevationRangeSource)
    (zoomLevels : list Z) (dataSources : list DataSource) (fuel : nat)
    (r : Result) :
  compute (computeRequiredInitialRootTileKeys this worldCenter) tilingScheme
    maxTileLevel elevationRangeSource zoomLevels dataSources fuel
  = Returned r →
  ∀ κ e, res_tileKeyEntries r !! κ = Some e →
    (type (projection (mapView this)) ≠ Planar
     ∨ m_tileWrappingEnabled this = false → offset e = 0%Z)
    ∧ (type (projection (mapView this)) = Planar
       ∧ m_tileWrappingEnabled this = true →
       (startOffset this worldCenter - offsetRange this worldCenter
        ≤ offset e
        ≤ startOffset this worldCenter + offsetRange this worldCenter)%Z
       ∧ (startOffset this worldCenter - 7 ≤ offset e
          ≤ startOffset this worldCenter + 7)%Z).
Proof.
  intros Hrun κ e Hlook.
  apply compute_Returned in Hrun as (t & Hrun & ->). simpl in Hlook.
  apply offsetsFromRoots_traverse in Hrun as (HM & _).
  specialize (HM κ e Hlook). split.
  - intros Hno. rewrite rootTileKeys_noWrap in HM by done.
    by apply list_elem_of_singleton in HM.
  - intros [Hty Hon]. rewrite rootTileKeys_wrap in HM by done.
    rewrite <- list_fmap_compose in HM.
    apply list_elem_of_fmap in HM as (o & -> & Ho). simpl.
    apply elem_of_seqZ in Ho.
    pose proof (offsetRange_bounds this worldCenter). lia.
Qed.

End RootsMore.

(** ** More on [compute] *)

Section ComputeMore.
Context `{HarpUtils}.
Variables (this : FrustumIntersection) (tilingScheme : TilingScheme)
  (maxTileLevel : Z) (elevationRangeSource : option ElevationRangeSource)
  (zoomLevels : list Z) (dataSources : list DataSource).

Abbreviation computeM :=
  (compute this tilingScheme maxTileLevel elevationRangeSource zoomLevels
     dataSources).
Abbreviation traverseM :=
  (traverse this tilingScheme maxTileLevel elevationRangeSource zoomLevels
     dataSources).
Abbreviation visitEntryM :=
  (visitEntry this tilingScheme maxTileLevel elevationRangeSource zoomLevels
     dataSources).
Abbreviation subdividedM := (subdivided maxTileLevel zoomLevels dataSources).
Abbreviation candM := (childCandidate this tilingScheme elevationRangeSource).
Abbreviation weightM := (workWeight tilingScheme maxTileLevel).
Abbreviation InvM :=
  (Inv this tilingScheme maxTileLevel elevationRangeSource zoomLevels
     dataSources).

(** *** Termination *)

Lemma workWeight_rev (l : list TileKeyEntry) : weightM (rev l) = weightM l.
Proof.
  unfold workWeight. induction l as [|e l IH]; [done|].
  simpl. rewrite sum_list_with_app, IH. simpl. lia.
Qed.

Lemma visitEntry_weight (e : TileKeyEntry) (t t' : Traversal) :
  (∀ k c, c ∈ getSubTileKeys tilingScheme k → level c = S (level k)) →
  visitEntryM e t = Returned t' →
  (weightM (workList t')
   < entryWeight tilingScheme maxTileLevel e + weightM (workList t))%nat.
Proof.
  intros Hlevel Hrun. rewrite visitEntry_unfold in Hrun.
  destruct (subdividedM e) eqn:Hsub.
  - destruct (tileKeyEntries t !! _); [|discriminate].
    destruct (Number_gt0 _); [|discriminate].
    rewrite (entryWeight_subdivided _ _ _ _ _ Hsub).
    apply (visitChildren_inv this tilingScheme elevationRangeSource
             (λ done t1,
                (weightM (workList t1)
                 ≤ weightM (workList t)
                   + sum_list_with
                       (subtreeSize tilingScheme
                          (Z.to_nat maxTileLevel - level (tileKey e)))
                       done)%nat) e _) in Hrun; [lia| |lia].
    intros done k rest t1 Hsplit Hw _.
    assert (Hk : k ∈ getSubTileKeys tilingScheme (tileKey e)).
    { rewrite Hsplit. apply elem_of_app. right. left. }
    pose proof (entryWeight_child this tilingScheme maxTileLevel
                  elevationRangeSource Hlevel e k Hk) as Hchild.
    rewrite sum_list_with_app.
    set (c0 := candM e k) in *. clearbody c0.
    unfold workWeight in *. cbn [workList applyCandidate sum_list_with].
    destruct (cand_pushed c0); cbn [sum_list_with]; lia.
  - injection Hrun as <-.
    pose proof (entryWeight_pos tilingScheme maxTileLevel e). lia.
Qed.

Lemma traverse_terminates (fuel : nat) (t : Traversal) :
  (∀ k c, c ∈ getSubTileKeys tilingScheme k → level c = S (level k)) →
  (weightM (workList t) ≤ fuel)%nat → traverseM fuel t ≠ OutOfFuel.
Proof.
  intros Hlevel. revert t.
  induction fuel as [|fuel IH]; intros [M f W V] Hfuel;
    cbn [workList] in Hfuel.
  - simpl. destruct W as [|e rest]; [done|].
    pose proof (entryWeight_pos tilingScheme maxTileLevel e).
    unfold workWeight in Hfuel. simpl in Hfuel. lia.
  - simpl. destruct W as [|e rest]; [done|].
    destruct (visitEntryM e _) as [t1| |] eqn:Hvisit; [|done|].
    + apply IH. apply (visitEntry_weight _ _ _ Hlevel) in Hvisit.
      cbn [workList] in Hvisit. unfold workWeight in *. simpl in Hfuel. lia.
    + by apply visitEntry_fuel in Hvisit.
Qed.

Lemma traverse_fuel_mono (fuel fuel' : nat) (t : Traversal)
    (o : Outcome Traversal) :
  (fuel ≤ fuel')%nat → traverseM fuel t = o → o ≠ OutOfFuel →
  traverseM fuel' t = o.
Proof.
  revert fuel' t. induction fuel as [|fuel IH]; intros fuel' [M f W V] Hle.
  - destruct W as [|e rest]; [by destruct fuel'|].
    simpl. by intros <-.
  - destruct fuel' as [|fuel']; [lia|]. simpl.
    destruct W as [|e rest]; [done|].
    destruct (visitEntryM e _) as [t1| |]; [|done..].
    apply IH. lia.
Qed.

(** X7. [compute] terminates on a tiling scheme whose sub-tiles are one
    level below their tile: with fuel for the trees below the root entries
    it returns or stops at an assertion, and what it gives does not change
    with more fuel. *)
Theorem compute_terminates :
  (∀ k c, c ∈ getSubTileKeys tilingScheme k → level c = S (level k)) →
  (∀ fuel,
     (workWeight tilingScheme maxTileLevel (m_rootTileKeys this) ≤ fuel)%nat →
     compute this tilingScheme maxTileLevel elevationRangeSource zoomLevels
       dataSources fuel ≠ OutOfFuel)
  ∧ (∀ fuel fuel' o,
       (fuel ≤ fuel')%nat →
       compute this tilingScheme maxTileLevel elevationRangeSource zoomLevels
         dataSources fuel = o →
       o ≠ OutOfFuel →
       compute this tilingScheme maxTileLevel elevationRangeSource zoomLevels
         dataSources fuel' = o).
Proof.
  intros Hlevel. split.
  - intros fuel Hfuel. unfold compute.
    pose proof (traverse_terminates fuel (initialTraversal this) Hlevel)
      as Hterm.
    cbn [workList initialTraversal] in Hterm.
    rewrite workWeight_rev in Hterm. specialize (Hterm Hfuel).
    by destruct (traverseM fuel (initialTraversal this)).
  - intros fuel fuel' o Hle Hrun Ho. unfold compute in *.
    destruct (traverseM fuel (initialTraversal this)) as [t|site|] eqn:Htrav.
    + by rewrite (traverse_fuel_mono fuel fuel' _ (Returned t) Hle Htrav).
    + by rewrite (traverse_fuel_mono fuel fuel' _ (AssertionFailed site)
                    Hle Htrav).
    + by subst o.
Qed.

(** *** Nothing to subdivide *)

Lemma traverse_skips (W : list TileKeyEntry) (M : gmap Z TileKeyEntry)
    (f : bool) (V : list Candidate) (fuel : nat) :
  (∀ e, e ∈ W → subdividedM e = false) → (length W ≤ fuel)%nat →
  traverseM fuel (mkTraversal M f W V) = Returned (mkTraversal M f [] V).
Proof.
  revert fuel. induction W as [|e rest IH]; intros fuel Hno Hfuel.
  - by destruct fuel.
  - destruct fuel as [|fuel]; [simpl in Hfuel; lia|]. simpl.
    rewrite visitEntry_unfold, (Hno e) by left.
    apply IH; [|simpl in Hfuel; lia]. intros e' He'. apply Hno. by right.
Qed.

(** X8. When no root is subdivided, because there is no data source, or
    [maxTileLevel] is negative, or no data source votes for a root tile,
    [compute] returns, with fuel for one pop per root, the root entries with
    unbounded area and nothing else: no child is considered and the flag is
    true.  Without roots (before the first [updateFrustum]) the result is
    empty. *)
Theorem nothing_subdivided_roots_only (fuel : nat) :
  dataSources = [] ∨ (maxTileLevel < 0)%Z
  ∨ (∀ e, e ∈ m_rootTileKeys this →
          someShouldSubdivide dataSources zoomLevels 0 (tileKey e) = false) →
  (length (m_rootTileKeys this) ≤ fuel)%nat →
  computeM fuel = Returned (rootsOnly this)
  ∧ (m_rootTileKeys this = [] → res_tileKeyEntries (rootsOnly this) = ∅)
  ∧ (∀ κ e, res_tileKeyEntries (rootsOnly this) !! κ = Some e →
       ∃ item, item ∈ m_rootTileKeys this ∧ κ = entryKey item
               ∧ e = unboundedEntry item).
Proof.
  intros Hcase Hfuel.
  assert (Hno : ∀ e, e ∈ rev (m_rootTileKeys this) → subdividedM e = false).
  { intros e He. apply (proj1 (elem_of_rev _ _)) in He. unfold subdivided.
    destruct Hcase as [-> |[Hneg|Hvote]].
    - simpl. apply andb_false_r.
    - apply andb_false_iff. left. apply negb_false_iff, Z.ltb_lt. lia.
    - rewrite (Hvote e He). apply andb_false_r. }
  split; [|split].
  - unfold compute, initialTraversal, rootsOnly.
    rewrite (traverse_skips _ _ _ _ fuel Hno); [done|].
    by rewrite length_rev.
  - intros Hempty. unfold rootsOnly. by rewrite Hempty.
  - intros κ e Hlook. unfold rootsOnly in Hlook. simpl in Hlook.
    apply setRootEntries_lookup in Hlook as [Hlook|Hroot]; [|done].
    by rewrite lookup_empty in Hlook.
Qed.

(** *** What the result holds *)

Lemma candidateEntry_offset (e1 e2 : TileKeyEntry) (k : TileKey) :
  offset e1 = offset e2 →
  candidateEntry tilingScheme (candM e1 k)
  = candidateEntry tilingScheme (candM e2 k).
Proof. unfold candidateEntry, childCandidate. simpl. by intros ->. Qed.

(** X9. [compute] does not go below [maxTileLevel]: every child it
    considers has a parent of level at most [maxTileLevel] that some data
    source wanted subdivided.  With roots of level 0 and sub-tiles one level
    below their tile, no entry of the result is deeper than
    [maxTileLevel + 1]. *)
Theorem subdivision_stops_at_max_level (fuel : nat) (r : Result) :
  computeM fuel = Returned r →
  (∀ c, c ∈ res_visited r →
     (Z.of_nat (level (tileKey (cand_parent c))) ≤ maxTileLevel)%Z
     ∧ someShouldSubdivide dataSources zoomLevels 0 (tileKey (cand_parent c))
       = true
     ∧ cand_tileKey c ∈ getSubTileKeys tilingScheme (tileKey (cand_parent c)))
  ∧ ((∀ k c, c ∈ getSubTileKeys tilingScheme k → level c = S (level k)) →
     (∀ item, item ∈ m_rootTileKeys this → level (tileKey item) = 0%nat) →
     ∀ κ e, res_tileKeyEntries r !! κ = Some e →
            (Z.of_nat (level (tileKey e)) ≤ Z.max 0 (maxTileLevel + 1))%Z).
Proof.
  intros Hrun. apply compute_Returned in Hrun as (t & Hrun & ->).
  cbn [res_visited res_tileKeyEntries].
  apply Inv_traverse in Hrun as [HInv _].
  assert (Hparent : ∀ c, c ∈ visited t →
            (Z.of_nat (level (tileKey (cand_parent c))) ≤ maxTileLevel)%Z
            ∧ someShouldSubdivide dataSources zoomLevels 0
                (tileKey (cand_parent c)) = true
            ∧ cand_tileKey c
              ∈ getSubTileKeys tilingScheme (tileKey (cand_parent c))).
  { intros c Hc.
    destruct (inv_candidate _ _ _ _ _ _ _ _ _ HInv c Hc)
      as (_ & Hchild & Hsub & _).
    unfold subdivided in Hsub. apply andb_true_iff in Hsub as [Hlev Hvote].
    apply negb_true_iff, Z.ltb_ge in Hlev. done. }
  split; [exact Hparent|]. intros Hlevel Hroots κ e Hlook.
  destruct (inv_entries _ _ _ _ _ _ _ _ _ HInv _ _ Hlook)
    as [(item & Hitem & _ & ->)|(c & Hc & _ & _ & ->)].
  - simpl. rewrite (Hroots item Hitem). lia.
  - destruct (Hparent c Hc) as (Hlev & _ & Hchild).
    simpl. rewrite (Hlevel _ _ Hchild). lia.
Qed.

(** X10. [compute] leaves no tile it should subdivide unvisited: for every
    entry of the result whose level is within [maxTileLevel] and that some
    data source wants subdivided, each sub-tile has been considered, and each
    sub-tile of positive area is in the result, under its composite key, with
    that area and the entry's offset. *)
Theorem visible_children_are_stored (fuel : nat) (r : Result) :
  computeM fuel = Returned r →
  ∀ κ e, res_tileKeyEntries r !! κ = Some e →
    subdividedM e = true →
    ∀ k, k ∈ getSubTileKeys tilingScheme (tileKey e) →
      (∃ c, c ∈ res_visited r ∧ cand_tileKey c = k
            ∧ offset (cand_parent c) = offset e
            ∧ cand_area c = cand_area (candM e k))
      ∧ ((0 < cand_area (candM e k))%Q →
         res_tileKeyEntries r !! getKeyForTileKeyAndOffset k (offset e)
         = Some (mkTileKeyEntry k (Num (cand_area (candM e k))) (offset e)
                   (minElevation (candidateEntry tilingScheme (candM e k)))
                   (maxElevation (candidateEntry tilingScheme (candM e k))))).
Proof.
  intros Hrun κ e Hlook Hsub k Hk.
  apply compute_Returned in Hrun as (t & Hrun & ->).
  cbn [res_visited res_tileKeyEntries] in *.
  apply Inv_traverse in Hrun as [HInv Hempty].
  assert (Hpushed : ∃ e', wasPushed this tilingScheme t e'
                         ∧ tileKey e' = tileKey e ∧ offset e' = offset e).
  { destruct (inv_entries _ _ _ _ _ _ _ _ _ HInv _ _ Hlook)
      as [(item & Hitem & _ & ->)|(c & Hc & Hp & _ & ->)].
    - exists item. split; [by left|done].
    - exists (candidateEntry tilingScheme c). split; [|done].
      right. by exists c. }
  destruct Hpushed as (e' & Hwas & Htk & Hoff).
  assert (Hvisited : candM e' k ∈ visited t).
  { destruct (inv_finished _ _ _ _ _ _ _ _ _ HInv e' Hwas)
      as [HW|[[Hno|Hall]|[Hcur _]]].
    - rewrite Hempty in HW. by apply not_elem_of_nil in HW.
    - unfold subdivided in Hno, Hsub. rewrite Htk in Hno. congruence.
    - apply Hall. by rewrite Htk.
    - discriminate. }
  destruct (childCandidate_offset this tilingScheme elevationRangeSource
              e' e k Hoff) as (Hkey & Harea & Hpush).
  split.
  - exists (candM e' k). by repeat split.
  - intros Hpos.
    assert (Hp : cand_pushed (candM e' k) = true).
    { rewrite Hpush. by apply Qltb_lt. }
    pose proof (inv_stored _ _ _ _ _ _ _ _ _ HInv _ Hvisited Hp) as Hstored.
    rewrite Hkey, (candidateEntry_offset e' e k Hoff) in Hstored.
    exact Hstored.
Qed.

(** X11. The result is closed under parents: an entry is a root entry, or
    the sub-tile of a tile whose composite key, at the entry's offset, is also
    in the result, with a positive area there. *)
Theorem result_closed_under_parents (fuel : nat) (r : Result) :
  computeM fuel = Returned r →
  ∀ κ e, res_tileKeyEntries r !! κ = Some e →
    (∃ item, item ∈ m_rootTileKeys this ∧ κ = entryKey item
             ∧ e = unboundedEntry item)
    ∨ (∃ parentKey cached,
         tileKey e ∈ getSubTileKeys tilingScheme parentKey
         ∧ (Z.of_nat (level parentKey) ≤ maxTileLevel)%Z
         ∧ res_tileKeyEntries r
           !! getKeyForTileKeyAndOffset parentKey (offset e) = Some cached
         ∧ Number_gt0 (area cached) = true).
Proof.
  intros Hrun κ e Hlook.
  apply compute_Returned in Hrun as (t & Hrun & ->).
  cbn [res_visited res_tileKeyEntries] in *.
  apply Inv_traverse in Hrun as [HInv _].
  destruct (inv_entries _ _ _ _ _ _ _ _ _ HInv _ _ Hlook)
    as [Hroot|(c & Hc & _ & _ & ->)]; [by left|right].
  destruct (inv_candidate _ _ _ _ _ _ _ _ _ HInv c Hc)
    as (_ & Hchild & Hsub & Hwas).
  destruct (Inv_cached _ _ _ _ _ _ _ _ _ _ HInv Hwas)
    as (cached & Hcached & Hgt).
  exists (tileKey (cand_parent c)), cached. split; [exact Hchild|].
  split; [|by split].
  unfold subdivided in Hsub. apply andb_true_iff in Hsub as [Hlev _].
  by apply negb_true_iff, Z.ltb_ge in Hlev.
Qed.

End ComputeMore.

Section ComputeElevation.
Context `{HarpUtils}.
Variables (this : FrustumIntersection) (tilingScheme : TilingScheme)
  (maxTileLevel : Z) (zoomLevels : list Z) (dataSources : list DataSource).

(** X12. An elevation source of the traversed tiling scheme is asked once
    for every child considered, with the child's tile key; every stored
    child carries the bounds of the range it answered as its elevations, and
    the flag of the result is true exactly when all these answers were
    [FinalPrecise]. *)
Theorem matching_elevation_source_used (src : ElevationRangeSource)
    (fuel : nat) (r : Result) :
  ts_ref (getTilingScheme src) = ts_ref tilingScheme →
  compute this tilingScheme maxTileLevel (Some src) zoomLevels dataSources fuel
  = Returned r →
  (∀ c, c ∈ res_visited r →
        cand_range c = Some (getElevationRange src (cand_tileKey c)))
  ∧ (∀ κ e, res_tileKeyEntries r !! κ = Some e →
       (∃ item, item ∈ m_rootTileKeys this ∧ e = unboundedEntry item)
       ∨ (minElevation e
          = range_minElevation (getElevationRange src (tileKey e))
          ∧ maxElevation e
            = range_maxElevation (getElevationRange src (tileKey e))))
  ∧ (res_calculationFinal r = true
     ↔ ∀ c, c ∈ res_visited r →
            calculationStatus (getElevationRange src (cand_tileKey c))
            = FinalPrecise).
Proof.
  intros Hsame Hrun. apply compute_Returned in Hrun as (t & Hrun & ->).
  cbn [res_visited res_tileKeyEntries res_calculationFinal].
  apply Inv_traverse in Hrun as [HInv _].
  assert (Hquery : ∀ c, c ∈ visited t →
            cand_range c = Some (getElevationRange src (cand_tileKey c))).
  { intros c Hc.
    destruct (inv_candidate _ _ _ _ _ _ _ _ _ HInv c Hc) as (Hdet & _).
    rewrite Hdet at 1. simpl. unfold queryElevation. simpl.
    by rewrite bool_decide_eq_true_2. }
  split; [exact Hquery|]. split.
  - intros κ e Hlook.
    destruct (inv_entries _ _ _ _ _ _ _ _ _ HInv _ _ Hlook)
      as [(item & Hitem & _ & ->)|(c & Hc & _ & _ & ->)].
    + left. by exists item.
    + right. unfold candidateEntry. rewrite (Hquery c Hc). by simpl.
  - rewrite (inv_final _ _ _ _ _ _ _ _ _ HInv), forallb_queryFinal. split.
    + intros Hall c Hc. by apply (Hall c _ Hc), Hquery.
    + intros Hall c range Hc Hrange. rewrite (Hquery c Hc) in Hrange.
      injection Hrange as <-. by apply Hall.
Qed.

(** X13. Every entry of the result is stored under the composite key of
    its own tile and offset; and an entry that is not a root entry carries
    the estimate [compute] found for its tile at its offset, which is
    positive. *)
Theorem entries_under_their_own_key
    (elevationRangeSource : option ElevationRangeSource) (fuel : nat)
    (r : Result) :
  compute this tilingScheme maxTileLevel elevationRangeSource zoomLevels
    dataSources fuel = Returned r →
  ∀ κ e, res_tileKeyEntries r !! κ = Some e →
    κ = getKeyForTileKeyAndOffset (tileKey e) (offset e)
    ∧ ((∃ item, item ∈ m_rootTileKeys this ∧ e = unboundedEntry item)
       ∨ (∃ q, area e = Num q ∧ (0 < q)%Q
               ∧ q = childArea this
                       (childGeoBox tilingScheme
                          (queryElevation tilingScheme elevationRangeSource
                             (tileKey e))
                          (tileKey e) (offset e)))).
Proof.
  intros Hrun κ e Hlook. apply compute_Returned in Hrun as (t & Hrun & ->).
  cbn [res_tileKeyEntries] in Hlook.
  apply Inv_traverse in Hrun as [HInv _].
  destruct (inv_entries _ _ _ _ _ _ _ _ _ HInv _ _ Hlook)
    as [(item & Hitem & -> & ->)|(c & Hc & Hp & -> & ->)].
  - split; [reflexivity|]. left. by exists item.
  - destruct (inv_candidate _ _ _ _ _ _ _ _ _ HInv c Hc) as (Hdet & _).
    destruct (candidate_key this tilingScheme elevationRangeSource c Hdet)
      as [Hkey Hpushed].
    split; [exact Hkey|]. right. exists (cand_area c).
    split; [reflexivity|]. split.
    + apply Qltb_lt. congruence.
    + rewrite Hdet at 1. reflexivity.
Qed.

End ComputeElevation.


(** ** Counting the entries, and the votes of the data sources *)

Section CountAndVotes.
Context `{HarpUtils}.

Lemma someShouldSubdivide_from (dataSources : list DataSource)
    (zoomLevels : list Z) (i : nat) (k : TileKey) :
  someShouldSubdivide dataSources zoomLevels i k = true
  ↔ ∃ j ds, dataSources !! j = Some ds
            ∧ shouldSubdivide ds (zoomLevels !! (i + j)%nat) k = true.
Proof.
  revert i. induction dataSources as [|d rest IH]; intros i; simpl.
  - split; [done|]. by intros (j & ds & Hj & _).
  - rewrite orb_true_iff, IH. split.
    + intros [Hd|(j & ds & Hj & Hv)].
      * exists 0%nat, d. split; [done|]. by rewrite Nat.add_0_r.
      * exists (S j), ds. split; [done|].
        by replace (i + S j)%nat with (S i + j)%nat by lia.
    + intros ([|j] & ds & Hj & Hv).
      * left. injection Hj as <-. by rewrite Nat.add_0_r in Hv.
      * right. exists j, ds. split; [done|].
        by replace (S i + j)%nat with (i + S j)%nat by lia.
Qed.

(** X14. The vote on a tile is the disjunction of the data sources' votes,
    the data source at index [j] being asked with [zoomLevels[j]], which is
    undefined when the zoom levels are fewer than the data sources; zoom
    levels past the last data source are not looked at. *)
Theorem votes_pair_sources_with_zoom_levels (dataSources : list DataSource)
    (zoomLevels extra : list Z) (k : TileKey) :
  (someShouldSubdivide dataSources zoomLevels 0 k = true
   ↔ ∃ j ds, dataSources !! j = Some ds
             ∧ shouldSubdivide ds (zoomLevels !! j) k = true)
  ∧ ((length dataSources ≤ length zoomLevels)%nat →
     someShouldSubdivide dataSources (zoomLevels ++ extra) 0 k
     = someShouldSubdivide dataSources zoomLevels 0 k).
Proof.
  split; [apply someShouldSubdivide_from|]. intros Hlen.
  apply eq_true_iff_eq. rewrite !someShouldSubdivide_from.
  split; intros (j & ds & Hj & Hv); exists j, ds; (split; [done|]);
    pose proof (lookup_lt_Some _ _ _ Hj) as Hlt; simpl in *.
  - by rewrite lookup_app_l in Hv by lia.
  - by rewrite lookup_app_l by lia.
Qed.


End CountAndVotes.

(** ** The assertions of [compute] *)

Section Assertions.
Context `{HarpUtils}.
Variables (this : FrustumIntersection) (tilingScheme : TilingScheme)
  (maxTileLevel : Z) (elevationRangeSource : option ElevationRangeSource)
  (zoomLevels : list Z) (dataSources : list DataSource).

Abbreviation computeA :=
  (compute this tilingScheme maxTileLevel elevationRangeSource zoomLevels
     dataSources).
Abbreviation traverseA :=
  (traverse this tilingScheme maxTileLevel elevationRangeSource zoomLevels
     dataSources).
Abbreviation visitEntryA :=
  (visitEntry this tilingScheme maxTileLevel elevationRangeSource zoomLevels
     dataSources).
Abbreviation visitChildrenA :=
  (visitChildren this tilingScheme elevationRangeSource).
Abbreviation InvA :=
  (Inv this tilingScheme maxTileLevel elevationRangeSource zoomLevels
     dataSources).

Lemma visitChildren_assert (e : TileKeyEntry) (children : list TileKey)
    (t : Traversal) (site : AssertSite) :
  visitChildrenA e children t = AssertionFailed site →
  site = assert_child_unvisited.
Proof.
  revert t. induction children as [|k rest IH]; intros t; simpl; [done|].
  rewrite visitChild_unfold.
  destruct (tileKeyEntries t !! _).
  - by intros [= <-].
  - apply IH.
Qed.

Lemma visitEntry_assert (M : gmap Z TileKeyEntry) (f : bool)
    (e : TileKeyEntry) (rest : list TileKeyEntry) (V : list Candidate)
    (site : AssertSite) :
  InvA None [] (mkTraversal M f (e :: rest) V) →
  visitEntryA e (mkTraversal M f rest V) = AssertionFailed site →
  site = assert_child_unvisited.
Proof.
  intros HInv. rewrite visitEntry_unfold.
  destruct (subdivided _ _ _ e); [|done].
  destruct (Inv_cached _ _ _ _ _ _ _ _ _ e HInv) as (cached & Hlook & Harea).
  { apply (inv_workList _ _ _ _ _ _ _ _ _ HInv). left. }
  simpl in Hlook. cbn [tileKeyEntries]. rewrite Hlook, Harea.
  apply visitChildren_assert.
Qed.

Lemma traverse_assert (fuel : nat) (t : Traversal) (site : AssertSite) :
  InvA None [] t → traverseA fuel t = AssertionFailed site →
  site = assert_child_unvisited.
Proof.
  revert t. induction fuel as [|fuel IH]; intros [M f W V] HInv; simpl.
  - by destruct W.
  - destruct W as [|e rest]; [done|].
    destruct (visitEntryA e _) as [t1|site1|] eqn:Hvisit; [|  |done].
    + apply IH. by apply (Inv_visitEntry _ _ _ _ _ _ M f e rest V).
    + intros [= <-]. by apply (visitEntry_assert M f e rest V).
Qed.

(** X16. The two assertions on the cached entry of a popped tile never
    fail, whatever the tiling scheme and the composite keys: the entry is in
    the map and its area is positive.  The only assertion [compute] can stop
    at is the one on the key of a child. *)
Theorem only_child_assertion_can_fail (fuel : nat) (site : AssertSite) :
  computeA fuel = AssertionFailed site → site = assert_child_unvisited.
Proof.
  unfold compute.
  destruct (traverseA fuel _) as [t|site1|] eqn:Hrun; [done| |done].
  intros [= <-]. apply (traverse_assert fuel (initialTraversal this));
    [apply Inv_initial|exact Hrun].
Qed.

Lemma visitChildren_present (e : TileKeyEntry) (children : list TileKey)
    (t : Traversal) (k : TileKey) :
  k ∈ children →
  is_Some (tileKeyEntries t !! getKeyForTileKeyAndOffset k (offset e)) →
  visitChildrenA e children t = AssertionFailed assert_child_unvisited.
Proof.
  revert t. induction children as [|k0 rest IH]; intros t Hin Hsome.
  - by apply not_elem_of_nil in Hin.
  - simpl. rewrite visitChild_unfold.
    destruct (tileKeyEntries t !! getKeyForTileKeyAndOffset k0 (offset e))
      eqn:Hlook; [reflexivity|].
    apply elem_of_cons in Hin as [->|Hin].
    + rewrite Hlook in Hsome. by destruct Hsome.
    + apply IH; [exact Hin|].
      unfold applyCandidate. cbn [tileKeyEntries].
      destruct (cand_pushed _); [|exact Hsome].
      apply lookup_insert_is_Some.
      destruct (decide (cand_key (childCandidate this tilingScheme
                                    elevationRangeSource e k0)
                        = getKeyForTileKeyAndOffset k (offset e)));
        [by left|by right].
Qed.

Lemma traverse_pop (fuel : nat) (M : gmap Z TileKeyEntry) (f : bool)
    (e : TileKeyEntry) (rest : list TileKeyEntry) (V : list Candidate) :
  traverseA (S fuel) (mkTraversal M f (e :: rest) V)
  = match visitEntryA e (mkTraversal M f rest V) with
    | Returned t' => traverseA fuel t'
    | AssertionFailed site => AssertionFailed site
    | OutOfFuel => OutOfFuel
    end.
Proof. reflexivity. Qed.

(** X17. A composite key that comes twice is caught: when the root popped
    first is subdivided and one of its sub-tiles has, at the root's offset,
    the composite key of a root entry, [compute] stops at the assertion on
    the child's key.  This is what happens on a tiling scheme in which a
    root tile is among its own sub-tiles: the traversal does not loop. *)
Theorem key_collision_stops_at_assertion (fuel : nat)
    (roots : list TileKeyEntry) (e : TileKeyEntry) (k : TileKey) :
  m_rootTileKeys this = roots ++ [e] →
  subdivided maxTileLevel zoomLevels dataSources e = true →
  k ∈ getSubTileKeys tilingScheme (tileKey e) →
  (∃ item, item ∈ m_rootTileKeys this
           ∧ entryKey item = getKeyForTileKeyAndOffset k (offset e)) →
  computeA (S fuel) = AssertionFailed assert_child_unvisited.
Proof.
  intros Hroots Hsub Hk (item & Hitem & Hkey).
  assert (Hinit : initialTraversal this
                  = mkTraversal (setRootEntries (m_rootTileKeys this) ∅) true
                      (e :: rev roots) []).
  { unfold initialTraversal. f_equal. by rewrite Hroots, rev_app_distr. }
  unfold compute. rewrite Hinit, traverse_pop.
  rewrite visitEntry_unfold, Hsub. cbn [tileKeyEntries].
  destruct (setRootEntries_is_Some (m_rootTileKeys this) ∅ (entryKey e))
    as [cached Hcached].
  { right. exists e. split; [|done]. rewrite Hroots.
    apply elem_of_app. right. left. }
  rewrite Hcached.
  pose proof Hcached as Hlook.
  apply setRootEntries_lookup in Hlook as [Hlook|(item' & _ & _ & ->)];
    [by rewrite lookup_empty in Hlook|].
  cbn [area unboundedEntry Number_gt0].
  rewrite (visitChildren_present e _ _ k); [reflexivity|exact Hk|].
  cbn [tileKeyEntries]. rewrite <- Hkey.
  apply setRootEntries_is_Some. right. by exists item.
Qed.

End Assertions.

(** ** The further theorems at work in the concrete setting *)

Section MoreInstances.

Lemma oriented_box_area_is_bounding_rectangle_witness :
  (intersects Example.eastOriented (m_frustum Example.flat) = false
   ∧ computeSubTileArea Example.flat (IsOrientedBox3 Example.eastOriented)
     = 0%Q)
  ∧ (intersects Example.westOriented (m_frustum Example.flat) = true
     ∧ ∃ lo hi,
         (∃ p, p ∈ projectedPoints Example.flat Example.westOriented
               ∧ THREE.x p = THREE.x2 lo)
         ∧ computeSubTileArea Example.flat
             (IsOrientedBox3 Example.westOriented)
           = ((THREE.x2 hi - THREE.x2 lo) * (THREE.y2 hi - THREE.y2 lo))%Q).
Proof.
  split.
  - split; [reflexivity|].
    exact (proj1 (oriented_box_area_is_bounding_rectangle Example.flat
                    Example.eastOriented) eq_refl).
  - split; [reflexivity|].
    destruct (proj2 (oriented_box_area_is_bounding_rectangle Example.flat
                       Example.westOriented) eq_refl)
      as (lo & hi & _ & Hlo & _ & _ & _ & Harea).
    exists lo, hi. exact (conj Hlo Harea).
Defined.

Lemma flat_box_area_zero_witness :
  THREE.x (THREE.min Example.thinBox) = THREE.x (THREE.max Example.thinBox)
  ∧ (computeSubTileArea Example.flat (IsBox3 Example.thinBox) == 0)%Q.
Proof.
  split; [reflexivity|].
  exact (proj1 (flat_box_area_zero Example.flat Example.thinBox
                  (or_introl eq_refl))).
Defined.

Lemma result_offsets_in_window_witness :
  ∃ r,
    compute
      (computeRequiredInitialRootTileKeys Example.wrapping
         (position Example.camera))
      Example.quadtree 1 None [1%Z] [Example.alwaysSubdivide] 200
    = Returned r
    ∧ ∀ κ e, res_tileKeyEntries r !! κ = Some e →
             (0 - 2 ≤ offset e ≤ 0 + 2)%Z.
Proof.
  assert (Hrun : ∃ r,
            compute
              (computeRequiredInitialRootTileKeys Example.wrapping
                 (position Example.camera))
              Example.quadtree 1 None [1%Z] [Example.alwaysSubdivide] 200
            = Returned r)
    by (eexists; by vm_compute).
  destruct Hrun as [r Hrun]. exists r. split; [exact Hrun|].
  intros κ e Hlook.
  destruct (proj2 (result_offsets_in_window Example.wrapping
                     (position Example.camera) Example.quadtree 1 None [1%Z]
                     [Example.alwaysSubdivide] 200 r Hrun κ e Hlook)
              (conj eq_refl eq_refl)) as [Hwindow _].
  assert (Hs : startOffset Example.wrapping (position Example.camera) = 0%Z)
    by (by vm_compute).
  assert (Hr : offsetRange Example.wrapping (position Example.camera) = 2%Z)
    by (by vm_compute).
  rewrite Hs, Hr in Hwindow. exact Hwindow.
Defined.

Lemma compute_terminates_witness :
  (∀ k c, c ∈ getSubTileKeys Example.quadtree k → level c = S (level k))
  ∧ ∀ fuel,
      (workWeight Example.quadtree 0 (m_rootTileKeys Example.flat) ≤ fuel)%nat →
      compute Example.flat Example.quadtree 0 None [0%Z]
        [Example.alwaysSubdivide] fuel ≠ OutOfFuel.
Proof.
  pose proof (proj1 quadtree_tree) as Hlevel.
  split; [exact Hlevel|].
  exact (proj1 (compute_terminates Example.flat Example.quadtree 0 None [0%Z]
                  [Example.alwaysSubdivide] Hlevel)).
Defined.

Lemma nothing_subdivided_roots_only_witness :
  (length (m_rootTileKeys Example.flat) ≤ 1)%nat
  ∧ compute Example.flat Example.quadtree 5 None [] [] 1
    = Returned (rootsOnly Example.flat).
Proof.
  assert (Hfuel : (length (m_rootTileKeys Example.flat) ≤ 1)%nat)
    by (vm_compute; lia).
  split; [exact Hfuel|].
  exact (proj1 (nothing_subdivided_roots_only Example.flat Example.quadtree 5
                  None [] [] 1 (or_introl eq_refl) Hfuel)).
Defined.

Lemma subdivision_stops_at_max_level_witness :
  ∃ r,
    compute Example.flat Example.quadtree 0 None [0%Z]
      [Example.alwaysSubdivide] 10 = Returned r
    ∧ ∀ c, c ∈ res_visited r →
        (Z.of_nat (level (tileKey (cand_parent c))) ≤ 0)%Z
        ∧ someShouldSubdivide [Example.alwaysSubdivide] [0%Z] 0
            (tileKey (cand_parent c)) = true
        ∧ cand_tileKey c
          ∈ getSubTileKeys Example.quadtree (tileKey (cand_parent c)).
Proof.
  assert (Hrun : ∃ r,
            compute Example.flat Example.quadtree 0 None [0%Z]
              [Example.alwaysSubdivide] 10 = Returned r)
    by (eexists; by vm_compute).
  destruct Hrun as [r Hrun]. exists r. split; [exact Hrun|].
  exact (proj1 (subdivision_stops_at_max_level Example.flat Example.quadtree 0
                  None [0%Z] [Example.alwaysSubdivide] 10 r Hrun)).
Defined.

Lemma visible_children_are_stored_witness :
  ∃ r,
    compute Example.flat Example.quadtree 0 None [0%Z]
      [Example.alwaysSubdivide] 10 = Returned r
    ∧ ∀ k, k ∈ getSubTileKeys Example.quadtree rootTileKey →
        ∃ c, c ∈ res_visited r ∧ cand_tileKey c = k.
Proof.
  assert (Hrun : ∃ r,
            compute Example.flat Example.quadtree 0 None [0%Z]
              [Example.alwaysSubdivide] 10 = Returned r)
    by (eexists; by vm_compute).
  destruct Hrun as [r Hrun]. exists r. split; [exact Hrun|].
  intros k Hk.
  assert (Hroot : res_tileKeyEntries r !! @entryKey _ Example.harp (rootEntry 0)
                  = Some (unboundedEntry (rootEntry 0))).
  { revert Hrun. vm_compute. by intros [= <-]. }
  destruct (proj1 (visible_children_are_stored Example.flat Example.quadtree 0
                     None [0%Z] [Example.alwaysSubdivide] 10 r Hrun _ _ Hroot
                     eq_refl k Hk))
    as (c & Hc & Htk & _).
  by exists c.
Defined.

Lemma result_closed_under_parents_witness :
  ∃ r,
    compute Example.flat Example.quadtree 0 None [0%Z]
      [Example.alwaysSubdivide] 10 = Returned r
    ∧ ∀ κ e, res_tileKeyEntries r !! κ = Some e →
        (∃ item, item ∈ m_rootTileKeys Example.flat ∧ κ = @entryKey _ Example.harp item
                 ∧ e = unboundedEntry item)
        ∨ (∃ parentKey cached,
             tileKey e ∈ getSubTileKeys Example.quadtree parentKey
             ∧ (Z.of_nat (level parentKey) ≤ 0)%Z
             ∧ res_tileKeyEntries r
               !! @getKeyForTileKeyAndOffset _ Example.harp parentKey
                    (offset e)
               = Some cached
             ∧ Number_gt0 (area cached) = true).
Proof.
  assert (Hrun : ∃ r,
            compute Example.flat Example.quadtree 0 None [0%Z]
              [Example.alwaysSubdivide] 10 = Returned r)
    by (eexists; by vm_compute).
  destruct Hrun as [r Hrun]. exists r. split; [exact Hrun|].
  exact (result_closed_under_parents Example.flat Example.quadtree 0 None
           [0%Z] [Example.alwaysSubdivide] 10 r Hrun).
Defined.

Lemma matching_elevation_source_used_witness :
  ts_ref (getTilingScheme Example.elevation) = ts_ref Example.quadtree
  ∧ ∃ r,
      compute Example.flat Example.quadtree 0 (Some Example.elevation) [0%Z]
        [Example.alwaysSubdivide] 10 = Returned r
      ∧ ∀ c, c ∈ res_visited r →
          cand_range c
          = Some (getElevationRange Example.elevation (cand_tileKey c)).
Proof.
  split; [reflexivity|].
  assert (Hrun : ∃ r,
            compute Example.flat Example.quadtree 0 (Some Example.elevation)
              [0%Z] [Example.alwaysSubdivide] 10 = Returned r)
    by (eexists; by vm_compute).
  destruct Hrun as [r Hrun]. exists r. split; [exact Hrun|].
  exact (proj1 (matching_elevation_source_used Example.flat Example.quadtree 0
                  [0%Z] [Example.alwaysSubdivide] Example.elevation 10 r
                  eq_refl Hrun)).
Defined.

Lemma entries_under_their_own_key_witness :
  ∃ r,
    compute Example.flat Example.quadtree 0 (Some Example.elevation) [0%Z]
      [Example.alwaysSubdivide] 10 = Returned r
    ∧ ∀ κ e, res_tileKeyEntries r !! κ = Some e →
             κ = @getKeyForTileKeyAndOffset _ Example.harp (tileKey e)
                   (offset e).
Proof.
  assert (Hrun : ∃ r,
            compute Example.flat Example.quadtree 0 (Some Example.elevation)
              [0%Z] [Example.alwaysSubdivide] 10 = Returned r)
    by (eexists; by vm_compute).
  destruct Hrun as [r Hrun]. exists r. split; [exact Hrun|].
  intros κ e Hlook.
  exact (proj1 (entries_under_their_own_key Example.flat Example.quadtree 0
                  [0%Z] [Example.alwaysSubdivide] (Some Example.elevation) 10
                  r Hrun κ e Hlook)).
Defined.

Lemma votes_pair_sources_with_zoom_levels_witness :
  (length [Example.alwaysSubdivide] ≤ length [3%Z])%nat
  ∧ someShouldSubdivide [Example.alwaysSubdivide] ([3%Z] ++ [4%Z; 5%Z]) 0
      rootTileKey
    = someShouldSubdivide [Example.alwaysSubdivide] [3%Z] 0 rootTileKey.
Proof.
  assert (Hlen : (length [Example.alwaysSubdivide] ≤ length [3%Z])%nat)
    by (simpl; lia).
  split; [exact Hlen|].
  exact (proj2 (votes_pair_sources_with_zoom_levels [Example.alwaysSubdivide]
                  [3%Z] [4%Z; 5%Z] rootTileKey) Hlen).
Defined.


Lemma only_child_assertion_can_fail_witness :
  ∃ site,
    compute Example.flat Example.loopScheme 0 None [0%Z]
      [Example.alwaysSubdivide] 10 = AssertionFailed site
    ∧ site = assert_child_unvisited.
Proof.
  assert (Hrun : ∃ site,
            compute Example.flat Example.loopScheme 0 None [0%Z]
              [Example.alwaysSubdivide] 10 = AssertionFailed site)
    by (eexists; by vm_compute).
  destruct Hrun as [site Hrun]. exists site. split; [exact Hrun|].
  exact (only_child_assertion_can_fail Example.flat Example.loopScheme 0 None
           [0%Z] [Example.alwaysSubdivide] 10 site Hrun).
Defined.

Lemma key_collision_stops_at_assertion_witness :
  m_rootTileKeys Example.flat = [] ++ [rootEntry 0]
  ∧ subdivided 0 [0%Z] [Example.alwaysSubdivide] (rootEntry 0) = true
  ∧ rootTileKey ∈ getSubTileKeys Example.loopScheme (tileKey (rootEntry 0))
  ∧ compute Example.flat Example.loopScheme 0 None [0%Z]
      [Example.alwaysSubdivide] 1
    = AssertionFailed assert_child_unvisited.
Proof.
  assert (Hroots : m_rootTileKeys Example.flat = [] ++ [rootEntry 0])
    by (by vm_compute).
  assert (Hsub : subdivided 0 [0%Z] [Example.alwaysSubdivide] (rootEntry 0)
                 = true) by reflexivity.
  assert (Hk : rootTileKey
               ∈ getSubTileKeys Example.loopScheme (tileKey (rootEntry 0))).
  { simpl. do 4 right. left. }
  split; [exact Hroots|]. split; [exact Hsub|]. split; [exact Hk|].
  apply (key_collision_stops_at_assertion Example.flat Example.loopScheme 0
           None [0%Z] [Example.alwaysSubdivide] 0 [] (rootEntry 0)
           rootTileKey Hroots Hsub Hk).
  exists (rootEntry 0). split; [|reflexivity].
  rewrite Hroots. left.
Defined.

End MoreInstances.
